(** * mrmd-monitor: terminal projector, document writer, coordination
      protocol and runtime client, embedded from the JavaScript sources.

    JavaScript strings are sequences of UTF-16 code units.  They are modelled
    as [list N]; [str] turns a literal into such a sequence.  Numbers that the
    code uses as indices, counters, client ids and timestamps are integers
    well below 2^53, where JavaScript arithmetic is exact; they are modelled
    as [nat] (indices) and [Z] (ids, timestamps). *)

From Stdlib Require Import NArith ZArith Ascii String DecimalString Lia.
From stdpp Require Import base option list strings gmap.

Local Open Scope N_scope.
Local Open Scope nat_scope.
Local Set Warnings "-register-all".

(** ** JavaScript strings and values *)

Module Js.

Fixpoint str (s : string) : list N :=
  match s with
  | EmptyString => []
  | String a s' => N_of_ascii a :: str s'
  end.

Definition BS : N := 8%N.
Definition TAB : N := 9%N.
Definition LF : N := 10%N.
Definition CR : N := 13%N.
Definition ESC : N := 27%N.
Definition SPACE : N := 32%N.
Definition MINUS : N := 45%N.
Definition DOT : N := 46%N.
Definition SEMI : N := 59%N.
Definition QUESTION : N := 63%N.
Definition LBRACKET : N := 91%N.
Definition BACKTICK : N := 96%N.

(** [c] is matched by the regular expression class [\d] (also [0-9]). *)
Definition is_digit (c : N) : bool := (48 <=? c)%N && (c <=? 57)%N.

(** The leading digits of a string. *)
Fixpoint digit_prefix (s : list N) : list N :=
  match s with
  | c :: s' => if is_digit c then c :: digit_prefix s' else []
  | [] => []
  end.

(** WhiteSpace and LineTerminator code units, the ones [trim] and [trimEnd]
    strip. *)
Definition is_whitespace (c : N) : bool :=
  ((9 <=? c) && (c <=? 13) || (c =? 32) || (c =? 160) || (c =? 5760)
   || (8192 <=? c) && (c <=? 8202) || (c =? 8232) || (c =? 8233)
   || (c =? 8239) || (c =? 8287) || (c =? 12288) || (c =? 65279))%N.

Fixpoint trimStart (s : list N) : list N :=
  match s with
  | c :: s' => if is_whitespace c then trimStart s' else s
  | [] => []
  end.

Definition trimEnd (s : list N) : list N := reverse (trimStart (reverse s)).

Definition trim (s : list N) : list N := trimEnd (trimStart s).

(** [s.split(sep)] for a one-unit separator: never an empty array. *)
Fixpoint split (sep : N) (s : list N) : list (list N) :=
  match s with
  | [] => [[]]
  | c :: s' =>
      if (c =? sep)%N then [] :: split sep s'
      else match split sep s' with
           | w :: ws => (c :: w) :: ws
           | [] => [[c]]
           end
  end.

(** [parts.join(sep)]. *)
Fixpoint join (sep : list N) (parts : list (list N)) : list N :=
  match parts with
  | [] => []
  | [p] => p
  | p :: ps => p ++ sep ++ join sep ps
  end.

(** [s.slice(a, b)] for [0 <= a <= b]. *)
Definition slice (a b : nat) (s : list N) : list N := take (b - a) (drop a s).

(** [s.startsWith(pat)]. *)
Fixpoint starts_with (pat s : list N) : bool :=
  match pat, s with
  | [], _ => true
  | p :: pat', c :: s' => (p =? c)%N && starts_with pat' s'
  | _ :: _, [] => false
  end.

(** An integer as string conversion prints it: decimal digits, after a
    minus sign when it is negative. *)
Definition decimal (z : Z) : list N := str (NilZero.string_of_int (Z.to_int z)).

(** [Math.max(0, z)], the result used as an index. *)
Definition max0 (z : Z) : nat := Z.to_nat (Z.max 0 z).

End Js.

Import Js.

(** ** src/terminal.js *)

Module Terminal.

(** [_lines] is an array of arrays.  An assignment past the end of a
    JavaScript array leaves holes, which read back as [undefined]: a cell of
    [_lines] is [None] for a hole and [Some line] for a line. *)
Record TerminalBuffer := mkTerminalBuffer {
  _lines : list (option (list N));
  _row : nat;
  _col : nat;
  _savedCursor : option (nat * nat)
}.

(** [new TerminalBuffer()]. *)
Definition new : TerminalBuffer := mkTerminalBuffer [Some []] 0 0 None.

Definition set_lines (ls : list (option (list N))) (t : TerminalBuffer) :=
  mkTerminalBuffer ls (_row t) (_col t) (_savedCursor t).
Definition set_row (r : nat) (t : TerminalBuffer) :=
  mkTerminalBuffer (_lines t) r (_col t) (_savedCursor t).
Definition set_col (c : nat) (t : TerminalBuffer) :=
  mkTerminalBuffer (_lines t) (_row t) c (_savedCursor t).

(** [arr[i] = v] on an array with holes: in range it overwrites, past the
    end it extends the array and leaves holes in between. *)
Definition array_set {A} (arr : list (option A)) (i : nat) (v : A) : list (option A) :=
  if decide (i < length arr) then <[i := Some v]> arr
  else arr ++ replicate (i - length arr) None ++ [Some v].

(** [arr[i]]: [None] is [undefined] (out of range or a hole). *)
Definition array_get {A} (arr : list (option A)) (i : nat) : option A :=
  mjoin (arr !! i).

Definition _ensureRow (row : nat) (t : TerminalBuffer) : TerminalBuffer :=
  set_lines (_lines t ++ replicate (S row - length (_lines t)) (Some [])) t.

(** [None] is the TypeError raised by [line.length] when the row is a hole. *)
Definition _writeChar (char : N) (t : TerminalBuffer) : option TerminalBuffer :=
  let t := _ensureRow (_row t) t in
  match array_get (_lines t) (_row t) with
  | None => None
  | Some line =>
      let line := line ++ replicate (S (_col t) - length line) SPACE in
      let line := <[_col t := char]> line in
      Some (mkTerminalBuffer (<[_row t := Some line]> (_lines t))
              (_row t) (S (_col t)) (_savedCursor t))
  end.

Definition _clearToEndOfLine (t : TerminalBuffer) : TerminalBuffer :=
  match array_get (_lines t) (_row t) with
  | Some line => set_lines (array_set (_lines t) (_row t) (take (_col t) line)) t
  | None => t
  end.

Definition _clearFromStartOfLine (t : TerminalBuffer) : TerminalBuffer :=
  match array_get (_lines t) (_row t) with
  | Some line =>
      let line :=
        foldl (fun l i => <[i := SPACE]> l) line
              (seq 0 (Nat.min (S (_col t)) (length line))) in
      set_lines (<[_row t := Some line]> (_lines t)) t
  | None => t
  end.

Definition _clearLine (t : TerminalBuffer) : TerminalBuffer :=
  set_lines (array_set (_lines t) (_row t) []) t.

Definition _clearToEndOfScreen (t : TerminalBuffer) : TerminalBuffer :=
  let t := _clearToEndOfLine t in
  set_lines
    (foldl (fun ls r => array_set ls r []) (_lines t)
           (seq (_row t + 1) (length (_lines t) - (_row t + 1)))) t.

Definition _clearFromStartOfScreen (t : TerminalBuffer) : TerminalBuffer :=
  let t :=
    set_lines (foldl (fun ls r => array_set ls r []) (_lines t) (seq 0 (_row t))) t in
  _clearFromStartOfLine t.

Definition _clearScreen (t : TerminalBuffer) : TerminalBuffer :=
  mkTerminalBuffer [Some []] 0 0 (_savedCursor t).

(** [/[0-9;]/.test(c)]. *)
Definition is_param (c : N) : bool := is_digit c || (c =? SEMI)%N.

(** The parameter bytes collected by the inner loop of
    [_parseEscapeSequence], read from the text at and after [j]. *)
Fixpoint collect_params (rest : list N) : list N :=
  match rest with
  | c :: rest' => if is_param c then c :: collect_params rest' else []
  | [] => []
  end.

(** [parseInt(s)] on the pieces of a parameter string, which hold digits
    only: the value of the leading digits, [None] (NaN) when there is none.
    The value is the exact one, as JavaScript has it below 2^53. *)
Definition parseInt (s : list N) : option nat :=
  match digit_prefix s with
  | [] => None
  | ds => Some (foldl (fun acc d => 10 * acc + N.to_nat (d - 48)) 0 ds)
  end.

(** [x || d] for a number or undefined/NaN [x]. *)
Definition or_default (x : option nat) (d : nat) : nat :=
  match x with
  | Some (S k) => S k
  | _ => d
  end.

Definition _parseEscapeSequence (text : list N) (i : nat) (t : TerminalBuffer)
  : nat * TerminalBuffer :=
  let j := i + 2 in
  let isPrivateMode := bool_decide (text !! j = Some QUESTION) in
  let j := if isPrivateMode then j + 1 else j in
  let params := collect_params (drop j text) in
  let j := j + length params in
  let cmd := text !! j in
  let j := j + 1 in
  if isPrivateMode || bool_decide (cmd = Some 109%N) then (j, t)
  else
    let nums :=
      match params with
      | [] => []
      | _ => (fun n => or_default (parseInt n) 0) <$> split SEMI params
      end in
    let n := or_default (nums !! 0) 1 in
    let t :=
      match cmd with
      | Some 65%N (* A *) => set_row (max0 (Z.of_nat (_row t) - Z.of_nat n)) t
      | Some 66%N (* B *) => let t := set_row (_row t + n) t in _ensureRow (_row t) t
      | Some 67%N (* C *) => set_col (_col t + n) t
      | Some 68%N (* D *) => set_col (max0 (Z.of_nat (_col t) - Z.of_nat n)) t
      | Some 69%N (* E *) =>
          let t := set_col 0 (set_row (_row t + n) t) in _ensureRow (_row t) t
      | Some 70%N (* F *) =>
          set_col 0 (set_row (max0 (Z.of_nat (_row t) - Z.of_nat n)) t)
      | Some 71%N (* G *) => set_col (max0 (Z.of_nat n - 1)) t
      | Some 72%N (* H *) | Some 102%N (* f *) =>
          let t := set_row (max0 (Z.of_nat (or_default (nums !! 0) 1) - 1)) t in
          let t := set_col (max0 (Z.of_nat (or_default (nums !! 1) 1) - 1)) t in
          _ensureRow (_row t) t
      | Some 74%N (* J *) =>
          if bool_decide (n = 0) || bool_decide (params = []) then _clearToEndOfScreen t
          else if bool_decide (n = 1) then _clearFromStartOfScreen t
          else if bool_decide (n = 2) || bool_decide (n = 3) then _clearScreen t
          else t
      | Some 75%N (* K *) =>
          if bool_decide (n = 0) || bool_decide (params = []) then _clearToEndOfLine t
          else if bool_decide (n = 1) then _clearFromStartOfLine t
          else if bool_decide (n = 2) then _clearLine t
          else t
      | Some 115%N (* s *) =>
          mkTerminalBuffer (_lines t) (_row t) (_col t) (Some (_row t, _col t))
      | Some 117%N (* u *) =>
          match _savedCursor t with
          | Some (r, c) => set_col c (set_row r t)
          | None => t
          end
      | _ => t
      end in
    (j, t).

(** One pass of the body of the loop in [write] for a character that does
    not start an escape sequence. *)
Definition write_char (char : N) (t : TerminalBuffer) : option TerminalBuffer :=
  if (char =? CR)%N then Some (set_col 0 t)
  else if (char =? LF)%N then
    let t := set_col 0 (set_row (_row t + 1) t) in Some (_ensureRow (_row t) t)
  else if (char =? BS)%N then Some (set_col (max0 (Z.of_nat (_col t) - 1)) t)
  else if (char =? TAB)%N then Some (set_col (_col t / 8 * 8 + 8) t)
  else if (32 <=? char)%N then _writeChar char t
  else Some t.

(** The loop of [write], started at index [i].  Every pass moves [i] forward,
    so [length text] passes are enough ([write_loop_fuel] below). *)
Fixpoint write_loop (fuel : nat) (text : list N) (i : nat) (t : TerminalBuffer)
  : option TerminalBuffer :=
  match fuel with
  | 0 => Some t
  | S fuel =>
      match text !! i with
      | None => Some t
      | Some char =>
          if (char =? ESC)%N && bool_decide (text !! (i + 1) = Some LBRACKET) then
            let '(j, t) := _parseEscapeSequence text i t in
            write_loop fuel text j t
          else
            t ← write_char char t;
            write_loop fuel text (i + 1) t
      end
  end.

(** [buffer.write(text)]; [None] when the call throws. *)
Definition write (text : list N) (t : TerminalBuffer) : option TerminalBuffer :=
  write_loop (length text) text 0 t.

Fixpoint pop_empty (rev_output : list (list N)) : list (list N) :=
  match rev_output with
  | [] :: rest => pop_empty rest
  | _ => rev_output
  end.

(** [buffer.toString()]; [None] is the TypeError raised by [line.join] on a
    hole. *)
Definition toString (t : TerminalBuffer) : option (list N) :=
  output ← mapM (fun line : option (list N) => trimEnd <$> line) (_lines t);
  Some (join [LF] (reverse (pop_empty (reverse output)))).

Definition clear (t : TerminalBuffer) : TerminalBuffer := new.

(** [processTerminalOutput(text)]. *)
Definition processTerminalOutput (text : list N) : option (list N) :=
  write text new ≫= toString.

(** *** Notions used to state the properties of [write] *)

(** The loop of [write] from index [i] to the end of the text. *)
Definition write_from (text : list N) (i : nat) (t : TerminalBuffer)
  : option TerminalBuffer :=
  write_loop (length text - i) text i t.

(** [write] called on each chunk in turn; a call that throws ends the run. *)
Fixpoint write_all (chunks : list (list N)) (t : TerminalBuffer)
  : option TerminalBuffer :=
  match chunks with
  | [] => Some t
  | chunk :: chunks => write chunk t ≫= write_all chunks
  end.

(** Whether the text, scanned the way [write] scans it from index [i], stops
    inside an escape sequence: its last character is ESC, or it holds ESC [
    and ends before the command byte of that sequence. *)
Fixpoint cut_loop (fuel : nat) (text : list N) (i : nat) : bool :=
  match fuel with
  | 0 => false
  | S fuel =>
      match text !! i with
      | None => false
      | Some char =>
          if (char =? ESC)%N then
            match text !! (i + 1) with
            | None => true
            | Some c =>
                if (c =? LBRACKET)%N then
                  let j := fst (_parseEscapeSequence text i new) in
                  if length text <? j then true else cut_loop fuel text j
                else cut_loop fuel text (i + 1)
            end
          else cut_loop fuel text (i + 1)
      end
  end.

Definition cut_from (text : list N) (i : nat) : bool :=
  cut_loop (length text - i) text i.

Definition ends_in_escape (text : list N) : bool := cut_loop (length text) text 0.





End Terminal.

(** ** src/document.js *)

Module Document.

(** The first index [k + d] at which [pat] occurs in [rest], [rest] being the
    text from index [k] on. *)
Fixpoint index_from (pat rest : list N) (k : nat) {struct rest} : option nat :=
  if starts_with pat rest then Some k
  else match rest with
       | [] => None
       | _ :: rest' => index_from pat rest' (S k)
       end.

(** [text.indexOf(pat, from)]; [None] is -1. *)
Definition indexOf (text pat : list N) (from : nat) : option nat :=
  let from := Nat.min from (length text) in
  index_from pat (drop from text) from.

Record OutputBlock := mkOutputBlock {
  markerStart : nat;
  contentStart : nat;
  contentEnd : nat
}.

Definition FENCE : list N := [BACKTICK; BACKTICK; BACKTICK].

(** The search loop for the closing fence; the result is [closingPos], [None]
    for -1.  Every pass moves [searchPos] forward by at least 3
    ([closing_loop_fuel] below). *)
Fixpoint closing_loop (fuel : nat) (text : list N) (searchPos : nat) : option nat :=
  match fuel with
  | 0 => None
  | S fuel =>
      if searchPos <? length text then
        match indexOf text FENCE searchPos with
        | None => None
        | Some nextBackticks =>
            if (nextBackticks =? 0)
               || bool_decide (text !! (nextBackticks - 1) = Some LF)
            then Some nextBackticks
            else closing_loop fuel text (nextBackticks + 3)
        end
      else None
  end.

(** The opening marker of [execId]: ['```output:' + execId]. *)
Definition marker (execId : list N) : list N := str "```output:" ++ execId.

(** [findOutputBlock(execId)] on the text [this.ytext.toString()]. *)
Definition findOutputBlock (text execId : list N) : option OutputBlock :=
  match indexOf text (marker execId) 0 with
  | None => None
  | Some markerStart =>
      match indexOf text [LF] markerStart with
      | None => None
      | Some newlineAfterMarker =>
          let contentStart := newlineAfterMarker + 1 in
          let closingPos := closing_loop (length text) text contentStart in
          let contentEnd := default (length text) closingPos in
          Some (mkOutputBlock markerStart contentStart contentEnd)
      end
  end.

(** The shared text.  Y.Text belongs to the Yjs library; it is modelled by
    what this module relies on: the current content, and the transactions
    committed on it so far, each recorded as the content it left behind,
    which is what observers and remote peers get to see.  [insert] and
    [delete] called outside [ydoc.transact] each run in a transaction of their
    own; an empty insertion or deletion commits nothing. *)
Record YText := mkYText {
  content : list N;
  committed : list (list N)
}.

Definition ytext_insert (index : nat) (s : list N) (y : YText) : YText :=
  match s with
  | [] => y
  | _ =>
      let c := take index (content y) ++ s ++ drop index (content y) in
      mkYText c (committed y ++ [c])
  end.

Definition ytext_delete (index len : nat) (y : YText) : YText :=
  match len with
  | 0 => y
  | _ =>
      let c := take index (content y) ++ drop (index + len) (content y) in
      mkYText c (committed y ++ [c])
  end.

(** [appendOutput(execId, content)]. *)
Definition appendOutput (execId new_content : list N) (y : YText) : bool * YText :=
  match findOutputBlock (content y) execId with
  | None => (false, y)
  | Some block => (true, ytext_insert (contentEnd block) new_content y)
  end.

(** [replaceOutput(execId, content)]. *)
Definition replaceOutput (execId new_content : list N) (y : YText) : bool * YText :=
  match findOutputBlock (content y) execId with
  | None => (false, y)
  | Some block =>
      let existingLength := contentEnd block - contentStart block in
      let y :=
        if 0 <? existingLength then ytext_delete (contentStart block) existingLength y
        else y in
      (true, ytext_insert (contentStart block) new_content y)
  end.

(** [hasOutputBlock(execId)]. *)
Definition hasOutputBlock (execId : list N) (y : YText) : bool :=
  bool_decide (findOutputBlock (content y) execId ≠ None).

(** [getOutputContent(execId)]. *)
Definition getOutputContent (execId : list N) (y : YText) : option (list N) :=
  block ← findOutputBlock (content y) execId;
  Some (slice (contentStart block) (contentEnd block) (content y)).

(** *** Notions used to state the properties of [findOutputBlock] *)

(** One of the lines of the text is exactly the opening marker of [execId]:
    the text holds an opening marker line with that exact id. *)
Definition has_marker_line (text execId : list N) : Prop :=
  marker execId ∈ split LF text.

(** A closing fence: three backticks at index [p], at the start of a line. *)
Definition fence_at (text : list N) (p : nat) : Prop :=
  starts_with FENCE (drop p text) = true ∧ (p = 0 ∨ text !! (p - 1) = Some LF).

End Document.

(** ** JavaScript values stored in records and carried by events *)

Module Value.

Inductive JsVal :=
| JUndefined
| JNull
| JBool (b : bool)
| JNum (n : Z)
| JStr (s : list N)
| JArr (items : list JsVal)
| JObj (fields : list (string * JsVal)).

(** [v === s] for a string literal [s]. *)
Definition is_string (v : JsVal) (s : list N) : bool :=
  match v with
  | JStr s' => bool_decide (s' = s)
  | _ => false
  end.

(** [v === null]. *)
Definition is_null (v : JsVal) : bool :=
  match v with
  | JNull => true
  | _ => false
  end.

(** ToBoolean. *)
Definition truthy (v : JsVal) : bool :=
  match v with
  | JUndefined | JNull => false
  | JBool b => b
  | JNum n => negb (n =? 0)%Z
  | JStr s => negb (bool_decide (s = []))
  | JArr _ | JObj _ => true
  end.

(** [a || b]. *)
Definition or_else (a b : JsVal) : JsVal := if truthy a then a else b.

Fixpoint assoc (k : string) (fields : list (string * JsVal)) : JsVal :=
  match fields with
  | [] => JUndefined
  | (k', v) :: rest => if String.eqb k k' then v else assoc k rest
  end.

(** [v.k] for a data property [k]; [None] is the TypeError raised on [null]
    and [undefined]. *)
Definition get_prop (v : JsVal) (k : string) : option JsVal :=
  match v with
  | JUndefined | JNull => None
  | JObj fields => Some (assoc k fields)
  | _ => Some JUndefined
  end.

(** [a ?? b]. *)
Definition nullish_or (a b : JsVal) : JsVal :=
  match a with
  | JUndefined | JNull => b
  | _ => a
  end.

(** The strings that the iterator of a string yields: its code points, a
    high surrogate taken together with the low surrogate that follows it. *)
Fixpoint code_points (s : list N) : list (list N) :=
  match s with
  | [] => []
  | c :: rest =>
      match rest with
      | d :: rest' =>
          if (55296 <=? c)%N && (c <=? 56319)%N && (56320 <=? d)%N && (d <=? 57343)%N
          then [c; d] :: code_points rest'
          else [c] :: code_points rest
      | [] => [[c]]
      end
  end.

(** [[...v]]; [None] is the TypeError raised on a value that is not
    iterable. *)
Definition spread (v : JsVal) : option (list JsVal) :=
  match v with
  | JArr items => Some items
  | JStr s => Some (JStr <$> code_points s)
  | _ => None
  end.

End Value.

Import Value.

(** ** src/coordination.js *)

Module Coordination.

Module EXECUTION_STATUS.
Definition REQUESTED : list N := str "requested".
Definition CLAIMED : list N := str "claimed".
Definition READY : list N := str "ready".
Definition RUNNING : list N := str "running".
Definition COMPLETED : list N := str "completed".
Definition ERROR : list N := str "error".
Definition CANCELLED : list N := str "cancelled".
End EXECUTION_STATUS.

(** An execution record is a plain object: a finite map from property names
    to values; a property that is not there reads as [undefined]. *)
Definition field (exec : gmap string JsVal) (k : string) : JsVal :=
  default JUndefined (exec !! k).

(** The protocol object: [clientId], and the shared map [executions] keyed
    by execution id. *)
Record CoordinationProtocol := mkCoordinationProtocol {
  clientId : Z;
  executions : gmap (list N) (gmap string JsVal)
}.

(** The digit of value [d] in radix 36. *)
Definition digit36 (d : N) : N := if (d <? 10)%N then (48 + d)%N else (87 + d)%N.

(** [x.toString(36)] for a number [0 <= x < 1], which is what
    [Math.random()] returns.  The number is given by the base-36 digits that
    the conversion prints after the point: none for 0, which prints as ["0"],
    and one or more for any other value, which prints as ["0."] and the
    digits. *)
Definition toString36 (frac : list N) : list N :=
  match frac with
  | [] => str "0"
  | _ => str "0." ++ (digit36 <$> frac)
  end.

(** [generateExecId()], the clock reading [now] and the random number (by
    its digits [frac]) given. *)
Definition generateExecId (now : Z) (frac : list N) : list N :=
  str "exec-" ++ decimal now ++ str "-" ++ slice 2 8 (toString36 frac).

(** [requestExecution({code, language, runtimeUrl, session, cellId})], the
    generated id given. *)
Definition requestExecution (now : Z) (execId : list N)
    (code language runtimeUrl session cellId : JsVal) (p : CoordinationProtocol)
  : list N * CoordinationProtocol :=
  let exec : gmap string JsVal :=
    list_to_map
      [("id", JStr execId); ("cellId", cellId); ("code", code);
       ("language", language); ("runtimeUrl", runtimeUrl); ("session", session);
       ("status", JStr EXECUTION_STATUS.REQUESTED);
       ("requestedBy", JNum (clientId p)); ("requestedAt", JNum now);
       ("claimedBy", JNull); ("claimedAt", JNull);
       ("outputBlockReady", JBool false); ("outputPosition", JNull);
       ("startedAt", JNull); ("completedAt", JNull);
       ("stdinRequest", JNull); ("stdinResponse", JNull);
       ("result", JNull); ("error", JNull); ("displayData", JArr [])] in
  (execId, mkCoordinationProtocol (clientId p) (<[execId := exec]> (executions p))).

(** [claimExecution(execId)], the clock reading [now] given. *)
Definition claimExecution (now : Z) (execId : list N) (p : CoordinationProtocol)
  : bool * CoordinationProtocol :=
  match executions p !! execId with
  | None => (false, p)
  | Some exec =>
      if negb (is_string (field exec "status") EXECUTION_STATUS.REQUESTED) then (false, p)
      else if negb (is_null (field exec "claimedBy")) then (false, p)
      else
        let exec' :=
          <["claimedAt" := JNum now]>
            (<["claimedBy" := JNum (clientId p)]>
               (<["status" := JStr EXECUTION_STATUS.CLAIMED]> exec)) in
        (true, mkCoordinationProtocol (clientId p) (<[execId := exec']> (executions p)))
  end.

(** [getExecution(execId)]. *)
Definition getExecution (execId : list N) (p : CoordinationProtocol)
  : option (gmap string JsVal) :=
  executions p !! execId.

(** *** Notions used to state the format of execution ids *)

(** [c] is matched by the class [[0-9a-z]]. *)
Definition is_base36 (c : N) : bool := is_digit c || (97 <=? c)%N && (c <=? 122)%N.

(** [s] is matched by [^exec-\d+-[0-9a-z]{lo,hi}$].  The digits can only be
    the longest run of digits after "exec-", since "-" has to follow. *)
Definition matches_exec_id (lo hi : nat) (s : list N) : bool :=
  starts_with (str "exec-") s
  && let rest := drop 5 s in
     let digits := digit_prefix rest in
     negb (bool_decide (digits = []))
     && match drop (length digits) rest with
        | c :: suffix =>
            (c =? MINUS)%N && (lo <=? length suffix) && (length suffix <=? hi)
            && forallb is_base36 suffix
        | [] => false
        end.

(** [setOutputBlockReady(execId, outputPosition)]. *)
Definition setOutputBlockReady (execId : list N) (outputPosition : JsVal)
    (p : CoordinationProtocol) : CoordinationProtocol :=
  match executions p !! execId with
  | None => p
  | Some exec =>
      let exec' :=
        <["outputPosition" := outputPosition]>
          (<["outputBlockReady" := JBool true]>
             (<["status" := JStr EXECUTION_STATUS.READY]> exec)) in
      mkCoordinationProtocol (clientId p) (<[execId := exec']> (executions p))
  end.

(** [setRunning(execId)], the clock reading [now] given. *)
Definition setRunning (now : Z) (execId : list N) (p : CoordinationProtocol)
  : CoordinationProtocol :=
  match executions p !! execId with
  | None => p
  | Some exec =>
      let exec' :=
        <["startedAt" := JNum now]>
          (<["status" := JStr EXECUTION_STATUS.RUNNING]> exec) in
      mkCoordinationProtocol (clientId p) (<[execId := exec']> (executions p))
  end.

(** [setCompleted(execId, {result, displayData})], a member that is not
    given being [undefined]. *)
Definition setCompleted (now : Z) (execId : list N) (result displayData : JsVal)
    (p : CoordinationProtocol) : CoordinationProtocol :=
  match executions p !! execId with
  | None => p
  | Some exec =>
      let exec' :=
        <["displayData" := nullish_or displayData (field exec "displayData")]>
          (<["result" := nullish_or result JNull]>
             (<["completedAt" := JNum now]>
                (<["status" := JStr EXECUTION_STATUS.COMPLETED]> exec))) in
      mkCoordinationProtocol (clientId p) (<[execId := exec']> (executions p))
  end.

(** [setError(execId, error)]. *)
Definition setError (now : Z) (execId : list N) (error : JsVal)
    (p : CoordinationProtocol) : CoordinationProtocol :=
  match executions p !! execId with
  | None => p
  | Some exec =>
      let exec' :=
        <["error" := error]>
          (<["completedAt" := JNum now]>
             (<["status" := JStr EXECUTION_STATUS.ERROR]> exec)) in
      mkCoordinationProtocol (clientId p) (<[execId := exec']> (executions p))
  end.

(** [requestStdin(execId, {prompt, password})]; [password] defaults to
    [false] when it is [undefined]. *)
Definition requestStdin (now : Z) (execId : list N) (prompt password : JsVal)
    (p : CoordinationProtocol) : CoordinationProtocol :=
  let password :=
    match password with
    | JUndefined => JBool false
    | _ => password
    end in
  match executions p !! execId with
  | None => p
  | Some exec =>
      let exec' :=
        <["stdinResponse" := JNull]>
          (<["stdinRequest" :=
               JObj [("prompt", prompt); ("password", password);
                     ("requestedAt", JNum now)]]> exec) in
      mkCoordinationProtocol (clientId p) (<[execId := exec']> (executions p))
  end.

(** [respondStdin(execId, text)]. *)
Definition respondStdin (now : Z) (execId : list N) (text : JsVal)
    (p : CoordinationProtocol) : CoordinationProtocol :=
  match executions p !! execId with
  | None => p
  | Some exec =>
      let exec' :=
        <["stdinResponse" := JObj [("text", text); ("respondedAt", JNum now)]]> exec in
      mkCoordinationProtocol (clientId p) (<[execId := exec']> (executions p))
  end.

(** [clearStdinRequest(execId)]. *)
Definition clearStdinRequest (execId : list N) (p : CoordinationProtocol)
  : CoordinationProtocol :=
  match executions p !! execId with
  | None => p
  | Some exec =>
      let exec' :=
        <["stdinResponse" := JNull]> (<["stdinRequest" := JNull]> exec) in
      mkCoordinationProtocol (clientId p) (<[execId := exec']> (executions p))
  end.

(** [addDisplayData(execId, display)]; [None] is the TypeError of spreading
    a [displayData] that is not iterable. *)
Definition addDisplayData (execId : list N) (display : JsVal)
    (p : CoordinationProtocol) : option CoordinationProtocol :=
  match executions p !! execId with
  | None => Some p
  | Some exec =>
      items ← spread (or_else (field exec "displayData") (JArr []));
      let exec' := <["displayData" := JArr (items ++ [display])]> exec in
      Some (mkCoordinationProtocol (clientId p) (<[execId := exec']> (executions p)))
  end.

(** *** Notions used to state what the protocol keeps *)

(** The properties of a record that [requestExecution] sets and that say
    what is to be run. *)
Definition request_fields : list string :=
  ["id"; "cellId"; "code"; "language"; "runtimeUrl"; "session";
   "requestedBy"; "requestedAt"].

(** [p'] has the records of [p], each with the request it had. *)
Definition same_requests (p p' : CoordinationProtocol) : Prop :=
  clientId p' = clientId p
  ∧ ∀ execId,
      match executions p !! execId, executions p' !! execId with
      | Some exec, Some exec' =>
          Forall (fun k : string => exec' !! k = exec !! k) request_fields
      | None, None => True
      | _, _ => False
      end.

(** The states that calls of the methods which update a record lead to. *)
Inductive updated : CoordinationProtocol -> CoordinationProtocol -> Prop :=
| updated_refl p : updated p p
| updated_claimExecution p p' now execId :
    updated p p' -> updated p (snd (claimExecution now execId p'))
| updated_setOutputBlockReady p p' execId outputPosition :
    updated p p' -> updated p (setOutputBlockReady execId outputPosition p')
| updated_setRunning p p' now execId :
    updated p p' -> updated p (setRunning now execId p')
| updated_setCompleted p p' now execId result displayData :
    updated p p' -> updated p (setCompleted now execId result displayData p')
| updated_setError p p' now execId error :
    updated p p' -> updated p (setError now execId error p')
| updated_requestStdin p p' now execId prompt password :
    updated p p' -> updated p (requestStdin now execId prompt password p')
| updated_respondStdin p p' now execId text :
    updated p p' -> updated p (respondStdin now execId text p')
| updated_clearStdinRequest p p' execId :
    updated p p' -> updated p (clearStdinRequest execId p')
| updated_addDisplayData p p' p'' execId display :
    updated p p' -> addDisplayData execId display p' = Some p'' -> updated p p''.

End Coordination.

(** ** src/execution.js *)

Module Execution.

(** A thrown error object, by the two properties the code reads. *)
Record JsError := mkJsError {
  name : list N;
  message : list N
}.

Definition TypeError : JsError := mkJsError (str "TypeError") [].
Definition SyntaxError : JsError := mkJsError (str "SyntaxError") [].

(** The rejection reason of a request whose signal has been aborted: a
    DOMException named AbortError. *)
Definition AbortError : JsError :=
  mkJsError (str "AbortError") (str "This operation was aborted").

(** The members of [ExecutionCallbacks]. *)
Inductive Callback :=
| onStdout | onStderr | onStdinRequest | onDisplay | onResult | onError
| onStart | onDone.

(** A call of a callback, with its arguments. *)
Inductive Call :=
| CallStdout (chunk accumulated : JsVal)
| CallStderr (chunk accumulated : JsVal)
| CallStdinRequest (data : JsVal)
| CallDisplay (data : JsVal)
| CallResult (data : JsVal)
| CallError (data : JsVal)
| CallStart
| CallDone.

(** The [callbacks] bundle: which members are there, and for a call of one
    whether it returns ([None]) or throws. *)
Record Callbacks := mkCallbacks {
  defined : Callback -> bool;
  throws : Call -> option JsError
}.

(** Synchronous code that calls callbacks and may throw: the calls made so
    far are threaded through, [inl e] is a throw of [e]. *)
Definition Sync (A : Type) : Type := list Call -> list Call * (JsError + A).

Definition ret {A} (a : A) : Sync A := fun calls => (calls, inr a).
Definition throw {A} (e : JsError) : Sync A := fun calls => (calls, inl e).
Definition bind {A B} (m : Sync A) (k : A -> Sync B) : Sync B :=
  fun calls =>
    match m calls with
    | (calls, inr a) => k a calls
    | (calls, inl e) => (calls, inl e)
    end.
Definition try_catch {A} (m : Sync A) (handler : JsError -> Sync A) : Sync A :=
  fun calls =>
    match m calls with
    | (calls, inl e) => handler e calls
    | r => r
    end.

Notation "'let*' x ':=' m 'in' k" := (bind m (fun x => k))
  (at level 10, x name, m at level 100, k at level 200).
Notation "'run' m 'in' k" := (bind m (fun _ => k))
  (at level 10, m at level 100, k at level 200).

(** [callbacks.member?.(args)]: nothing happens when the member is missing;
    otherwise the arguments are evaluated ([None]: that raised a TypeError)
    and the call is made. *)
Definition invoke (callbacks : Callbacks) (member : Callback) (call : option Call)
  : Sync unit :=
  fun calls =>
    if defined callbacks member then
      match call with
      | None => (calls, inl TypeError)
      | Some c =>
          (calls ++ [c],
           match throws callbacks c with
           | Some e => inl e
           | None => inr tt
           end)
      end
    else (calls, inr tt).

Definition _handleEvent (event : option (list N)) (data : JsVal)
    (callbacks : Callbacks) : Sync JsVal :=
  let on (s : string) := bool_decide (event = Some (str s)) in
  if on "start" then ret JNull
  else if on "stdout" then
    run invoke callbacks onStdout
      (c ← get_prop data "content"; a ← get_prop data "accumulated";
       Some (CallStdout c a)) in
    ret JNull
  else if on "stderr" then
    run invoke callbacks onStderr
      (c ← get_prop data "content"; a ← get_prop data "accumulated";
       Some (CallStderr c a)) in
    ret JNull
  else if on "stdin_request" then
    run invoke callbacks onStdinRequest (Some (CallStdinRequest data)) in ret JNull
  else if on "display" then
    run invoke callbacks onDisplay (Some (CallDisplay data)) in ret JNull
  else if on "asset" then
    run invoke callbacks onDisplay
      (m ← get_prop data "mimeType"; p ← get_prop data "path";
       u ← get_prop data "url";
       Some (CallDisplay (JObj [("mimeType", m); ("assetId", p); ("url", u)]))) in
    ret JNull
  else if on "result" then
    run invoke callbacks onResult (Some (CallResult data)) in ret data
  else if on "error" then
    run invoke callbacks onError (Some (CallError data)) in
    ret (JObj [("success", JBool false); ("error", data)])
  else ret JNull.

Section Execute.

(** [JSON.parse]; [None] when it throws a SyntaxError. *)
Variable JSON_parse : list N -> option JsVal.

(** The body of [for (const line of lines)]. *)
Definition process_line (callbacks : Callbacks) (line : list N)
    (vars : option (list N) * JsVal) : Sync (option (list N) * JsVal) :=
  let '(currentEvent, finalResult) := vars in
  if starts_with (str "event: ") line then
    ret (Some (trim (drop 7 line)), finalResult)
  else if starts_with (str "data: ") line then
    try_catch
      (match JSON_parse (drop 6 line) with
       | None => throw SyntaxError
       | Some data =>
           let* r := _handleEvent currentEvent data callbacks in
           ret (currentEvent, or_else r finalResult)
       end)
      (fun _ => ret vars)
  else ret vars.

Fixpoint process_lines (callbacks : Callbacks) (lines : list (list N))
    (vars : option (list N) * JsVal) : Sync (option (list N) * JsVal) :=
  match lines with
  | [] => ret vars
  | line :: lines =>
      let* vars := process_line callbacks line vars in
      process_lines callbacks lines vars
  end.

(** Where an [execute] call is suspended: at [await fetch(..)], at
    [await response.text()] (the response status kept), or at
    [await reader.read()] (the loop variables kept). *)
Inductive Pending :=
| AwaitFetch
| AwaitText (status : nat)
| AwaitRead (currentEvent : option (list N)) (buffer : list N) (finalResult : JsVal).

(** What the awaited promise resolves to: the response's [ok] and [status];
    the body text; a chunk as decoded, [None] when [done]. *)
Definition Answer (p : Pending) : Type :=
  match p with
  | AwaitFetch => (bool * nat)%type
  | AwaitText _ => list N
  | AwaitRead _ _ _ => option (list N)
  end.

Inductive Next :=
| Suspend (p : Pending)
| Return (v : JsVal).

(** The [try] block, from the pending [await] to the next one or to its
    [return]; [inl e] is the awaited promise rejected with [e]. *)
Definition try_block (callbacks : Callbacks) (p : Pending)
  : JsError + Answer p -> Sync Next :=
  match p with
  | AwaitFetch => fun r =>
      match r with
      | inl e => throw e
      | inr (ok, status) =>
          if ok then
            run invoke callbacks onStart (Some CallStart) in
            ret (Suspend (AwaitRead None [] JNull))
          else ret (Suspend (AwaitText status))
      end
  | AwaitText status => fun r =>
      match r with
      | inl e => throw e
      | inr error =>
          throw (mkJsError (str "Error")
                   (str "MRP request failed: " ++ decimal (Z.of_nat status)
                      ++ str " " ++ error))
      end
  | AwaitRead currentEvent buffer finalResult => fun r =>
      match r with
      | inl e => throw e
      | inr None =>
          run invoke callbacks onDone (Some CallDone) in
          ret (Return (or_else finalResult (JObj [("success", JBool true)])))
      | inr (Some value) =>
          let buffer := buffer ++ value in
          let lines := split LF buffer in
          let buffer := List.last lines [] in
          let lines := removelast lines in
          let* vars := process_lines callbacks lines (currentEvent, finalResult) in
          ret (Suspend (AwaitRead (fst vars) buffer (snd vars)))
      end
  end.

Definition aborted_result : JsVal :=
  JObj [("success", JBool false);
        ("error", JObj [("type", JStr (str "Aborted"));
                        ("message", JStr (str "Execution cancelled"))])].

(** The [catch] block. *)
Definition catch_block (callbacks : Callbacks) (err : JsError) : Sync JsVal :=
  if bool_decide (name err = str "AbortError") then ret aborted_result
  else
    run invoke callbacks onError
      (Some (CallError (JObj [("type", JStr (str "ConnectionError"));
                              ("message", JStr (message err))]))) in
    throw err.

(** The handler's [_activeExecutions], a map from execution ids to
    AbortController objects, and the controllers themselves: controller [c]
    is cell [c] of [controllers], which holds its signal's [aborted] flag. *)
Record ExecutionHandler := mkExecutionHandler {
  _activeExecutions : gmap (list N) nat;
  controllers : list bool
}.

(** [new ExecutionHandler()]. *)
Definition new : ExecutionHandler := mkExecutionHandler ∅ [].

(** [if (execId)] for an id that is a string or undefined. *)
Definition given (execId : option (list N)) : option (list N) :=
  match execId with
  | Some [] | None => None
  | Some id => Some id
  end.

(** The [finally] block. *)
Definition finally_block (execId : option (list N)) (h : ExecutionHandler)
  : ExecutionHandler :=
  match given execId with
  | Some id => mkExecutionHandler (delete id (_activeExecutions h)) (controllers h)
  | None => h
  end.

(** A call of [execute] that has not settled: its options, its
    AbortController, and the [await] it is suspended at. *)
Record Task := mkTask {
  execId : option (list N);
  callbacks : Callbacks;
  abortController : nat;
  pending : Pending
}.

Inductive Outcome :=
| Returned (v : JsVal)
| Threw (e : JsError).

Inductive Progress :=
| Suspended (t : Task)
| Settled (o : Outcome).

(** [execute(runtimeUrl, code, {session, execId, callbacks})] up to its first
    [await]. *)
Definition execute (execId : option (list N)) (callbacks : Callbacks)
    (h : ExecutionHandler) : ExecutionHandler * Task :=
  let abortController := length (controllers h) in
  let h := mkExecutionHandler (_activeExecutions h) (controllers h ++ [false]) in
  let h :=
    match given execId with
    | Some id =>
        mkExecutionHandler (<[id := abortController]> (_activeExecutions h))
          (controllers h)
    | None => h
    end in
  (h, mkTask execId callbacks abortController AwaitFetch).

(** What the pending [await] of a task gets: the request and the body stream
    carry the controller's signal, so once the signal is aborted the awaited
    promise is rejected with AbortError whatever the network [r] held. *)
Definition delivered (h : ExecutionHandler) (t : Task)
    (r : JsError + Answer (pending t)) : JsError + Answer (pending t) :=
  if default false (controllers h !! abortController t) then inl AbortError else r.

(** [execute] resumed at its pending [await], run to the next [await] or
    until it settles. *)
Definition resume (t : Task) (r : JsError + Answer (pending t))
    (h : ExecutionHandler) (calls : list Call)
  : ExecutionHandler * list Call * Progress :=
  match try_block (callbacks t) (pending t) (delivered h t r) calls with
  | (calls, inr (Suspend p)) =>
      (h, calls, Suspended (mkTask (execId t) (callbacks t) (abortController t) p))
  | (calls, inr (Return v)) =>
      (finally_block (execId t) h, calls, Settled (Returned v))
  | (calls, inl err) =>
      match catch_block (callbacks t) err calls with
      | (calls, inr v) => (finally_block (execId t) h, calls, Settled (Returned v))
      | (calls, inl e) => (finally_block (execId t) h, calls, Settled (Threw e))
      end
  end.

End Execute.

(** [cancel(execId)]. *)
Definition cancel (execId : list N) (h : ExecutionHandler) : ExecutionHandler :=
  match _activeExecutions h !! execId with
  | Some controller =>
      mkExecutionHandler (_activeExecutions h) (<[controller := true]> (controllers h))
  | None => h
  end.

(** [cancelAll()]. *)
Definition cancelAll (h : ExecutionHandler) : ExecutionHandler :=
  mkExecutionHandler ∅
    (map_fold (fun _ controller cs => <[controller := true]> cs)
       (controllers h) (_activeExecutions h)).

(** [isActive(execId)]. *)
Definition isActive (execId : list N) (h : ExecutionHandler) : bool :=
  bool_decide (is_Some (_activeExecutions h !! execId)).

(** [activeCount]. *)
Definition activeCount (h : ExecutionHandler) : nat := size (_activeExecutions h).

(** The handler states that calls of the methods can produce. *)
Inductive reachable (JSON_parse : list N -> option JsVal) : ExecutionHandler -> Prop :=
| reachable_new : reachable JSON_parse new
| reachable_execute execId callbacks h :
    reachable JSON_parse h ->
    reachable JSON_parse (fst (execute execId callbacks h))
| reachable_resume t r h calls :
    reachable JSON_parse h ->
    reachable JSON_parse (fst (fst (resume JSON_parse t r h calls)))
| reachable_cancel execId h :
    reachable JSON_parse h -> reachable JSON_parse (cancel execId h)
| reachable_cancelAll h :
    reachable JSON_parse h -> reachable JSON_parse (cancelAll h).



(** The handler states that calls of the methods lead to from [h]. *)
Inductive evolves (JSON_parse : list N -> option JsVal) (h : ExecutionHandler)
  : ExecutionHandler -> Prop :=
| evolves_refl : evolves JSON_parse h h
| evolves_execute execId callbacks h' :
    evolves JSON_parse h h' ->
    evolves JSON_parse h (fst (execute execId callbacks h'))
| evolves_resume t r h' calls :
    evolves JSON_parse h h' ->
    evolves JSON_parse h (fst (fst (resume JSON_parse t r h' calls)))
| evolves_cancel execId h' :
    evolves JSON_parse h h' -> evolves JSON_parse h (cancel execId h')
| evolves_cancelAll h' :
    evolves JSON_parse h h' -> evolves JSON_parse h (cancelAll h').

(** Every controller of the registry exists. *)
Definition in_range (h : ExecutionHandler) : Prop :=
  ∀ id c, _activeExecutions h !! id = Some c → c < length (controllers h).

(** Controller [c] is not aborted and no id leads to it. *)
Definition detached (c : nat) (h : ExecutionHandler) : Prop :=
  controllers h !! c = Some false
  ∧ (∀ id, _activeExecutions h !! id ≠ Some c)
  ∧ in_range h.

End Execution.

(** ** src/monitor.js *)

Module Monitor.

(** The part of a RuntimeMonitor that [_handleRequest] works on: the
    coordination protocol and the set [_processingExecutions].  The log lines
    that the methods write are left out. *)
Record RuntimeMonitor := mkRuntimeMonitor {
  coordination : Coordination.CoordinationProtocol;
  _processingExecutions : gset (list N)
}.

(** [_handleRequest(execId, exec)], the clock reading [now] given. *)
Definition _handleRequest (now : Z) (execId : list N) (m : RuntimeMonitor)
  : RuntimeMonitor :=
  if bool_decide (execId ∈ _processingExecutions m) then m
  else
    let '(claimed, p) := Coordination.claimExecution now execId (coordination m) in
    if claimed then mkRuntimeMonitor p ({[execId]} ∪ _processingExecutions m)
    else mkRuntimeMonitor p (_processingExecutions m).

(** The [onStdout] callback that [_handleReady] gives to [execute], and the
    [onStderr] one, which has the same body: the chunk, a string, goes
    through the call's terminal buffer, and the text of the buffer replaces
    the content of the output block.  [None] is a throw. *)
Definition onStdout (execId chunk : list N)
    (s : Terminal.TerminalBuffer * Document.YText)
  : option (Terminal.TerminalBuffer * Document.YText) :=
  buffer ← Terminal.write chunk (fst s);
  text ← Terminal.toString buffer;
  Some (buffer, snd (Document.replaceOutput execId text (snd s))).

Definition onStderr := onStdout.

(** *** The monitor that appends (src/unnamed/part_002) *)

Module Appending.

(** The [onStdout] callback of this monitor, and its [onStderr], which has
    the same body: what [accumulated], a string, holds beyond
    [lastWrittenLength] is appended to the output block. *)
Definition onStdout (execId accumulated : list N) (s : nat * Document.YText)
  : nat * Document.YText :=
  let newContent := drop (fst s) accumulated in
  if bool_decide (newContent = []) then s
  else (length accumulated, snd (Document.appendOutput execId newContent (snd s))).

Definition onStderr := onStdout.

(** The callback called for each chunk in turn, the runtime sending with
    each chunk the output accumulated so far. *)
Fixpoint stream (execId accumulated : list N) (chunks : list (list N))
    (s : nat * Document.YText) : nat * Document.YText :=
  match chunks with
  | [] => s
  | chunk :: chunks =>
      stream execId (accumulated ++ chunk) chunks
        (onStdout execId (accumulated ++ chunk) s)
  end.

End Appending.

End Monitor.

(** * Properties *)

(** ** The terminal projector *)

Import Terminal.

Section WriteLoop.

(** An escape sequence ends after the index it starts at. *)
Lemma parse_next_gt text i t : i < fst (_parseEscapeSequence text i t).
Proof.
  unfold _parseEscapeSequence.
  repeat (case_match; simpl); lia.
Qed.

(** Where an escape sequence ends depends on the text only. *)
Lemma parse_next_state_indep text i t t' :
  fst (_parseEscapeSequence text i t) = fst (_parseEscapeSequence text i t').
Proof.
  unfold _parseEscapeSequence.
  destruct (bool_decide (text !! (i + 2) = Some QUESTION)); simpl.
  - reflexivity.
  - case_match; reflexivity.
Qed.

(** The loop of [write] has run out of text before it runs out of passes:
    any two numbers of passes that cover the rest of the text agree. *)
Lemma write_loop_fuel fuel fuel' text i t :
  length text - i ≤ fuel → length text - i ≤ fuel' →
  write_loop fuel text i t = write_loop fuel' text i t.
Proof.
  revert fuel' i t. induction fuel as [|fuel IH]; intros [|fuel'] i t Hf Hf'; simpl;
    try reflexivity;
    try (rewrite lookup_ge_None_2 by lia; reflexivity).
  destruct (text !! i) as [char|] eqn:Hi; [|done].
  assert (Hlt : i < length text) by (eapply lookup_lt_Some; eauto).
  destruct ((char =? ESC)%N && bool_decide (text !! (i + 1) = Some LBRACKET)).
  - destruct (_parseEscapeSequence text i t) as [j t'] eqn:Hp.
    pose proof (parse_next_gt text i t) as Hgt. rewrite Hp in Hgt. simpl in Hgt.
    apply IH; lia.
  - destruct (write_char char t) as [t'|]; simpl; [|done].
    apply IH; lia.
Qed.

(** The loop of [write], one pass unfolded. *)
Lemma write_from_eq text i t :
  write_from text i t =
  match text !! i with
  | None => Some t
  | Some char =>
      if (char =? ESC)%N && bool_decide (text !! (i + 1) = Some LBRACKET) then
        write_from text (fst (_parseEscapeSequence text i t))
          (snd (_parseEscapeSequence text i t))
      else write_char char t ≫= write_from text (i + 1)
  end.
Proof.
  unfold write_from.
  destruct (text !! i) as [char|] eqn:Hi.
  - assert (Hlt : i < length text) by (eapply lookup_lt_Some; eauto).
    destruct (length text - i) as [|n] eqn:Hn; [lia|]. simpl. rewrite Hi.
    destruct ((char =? ESC)%N && bool_decide (text !! (i + 1) = Some LBRACKET)).
    + pose proof (parse_next_gt text i t) as Hgt.
      destruct (_parseEscapeSequence text i t) as [j t']. simpl in *.
      apply write_loop_fuel; lia.
    + destruct (write_char char t) as [t'|]; simpl; [|done].
      apply write_loop_fuel; lia.
  - apply lookup_ge_None_1 in Hi.
    replace (length text - i) with 0 by lia. reflexivity.
Qed.

Lemma write_from_0 text t : write text t = write_from text 0 t.
Proof. unfold write, write_from. by rewrite Nat.sub_0_r. Qed.

Lemma collect_params_app a b :
  length (collect_params a) < length a →
  collect_params (a ++ b) = collect_params a.
Proof.
  induction a as [|c a IH]; simpl; [lia|].
  destruct (is_param c); simpl; [|done].
  intros H. f_equal. apply IH. lia.
Qed.

(** An escape sequence is parsed the same after a prefix is put before the
    text. *)
Lemma parse_shift pre text k t :
  _parseEscapeSequence (pre ++ text) (length pre + k) t =
  (length pre + fst (_parseEscapeSequence text k t),
   snd (_parseEscapeSequence text k t)).
Proof.
  unfold _parseEscapeSequence.
  replace (length pre + k + 2) with (length pre + (k + 2)) by lia.
  rewrite lookup_app_r by lia.
  replace (length pre + (k + 2) - length pre) with (k + 2) by lia.
  set (isPrivateMode := bool_decide (text !! (k + 2) = Some QUESTION)).
  replace (if isPrivateMode then length pre + (k + 2) + 1 else length pre + (k + 2))
    with (length pre + (if isPrivateMode then k + 2 + 1 else k + 2))
    by (destruct isPrivateMode; lia).
  set (j := if isPrivateMode then k + 2 + 1 else k + 2).
  rewrite drop_app_add'  by done.
  set (params := collect_params (drop j text)).
  replace (length pre + j + length params) with (length pre + (j + length params)) by lia.
  rewrite lookup_app_r by lia.
  replace (length pre + (j + length params) - length pre) with (j + length params) by lia.
  destruct (isPrivateMode || bool_decide (text !! (j + length params) = Some 109%N));
    simpl; f_equal; lia.
Qed.

Lemma parse_next_eq text i t :
  fst (_parseEscapeSequence text i t) =
  let j := if bool_decide (text !! (i + 2) = Some QUESTION) then i + 2 + 1 else i + 2 in
  j + length (collect_params (drop j text)) + 1.
Proof.
  unfold _parseEscapeSequence. cbv zeta.
  destruct (bool_decide (text !! (i + 2) = Some QUESTION)); simpl; [done|].
  case_match; reflexivity.
Qed.

(** An escape sequence that ends inside [c1] is parsed the same when more
    text follows [c1]. *)
Lemma parse_prefix c1 c2 i t :
  fst (_parseEscapeSequence c1 i t) ≤ length c1 →
  _parseEscapeSequence (c1 ++ c2) i t = _parseEscapeSequence c1 i t.
Proof.
  rewrite parse_next_eq. cbv zeta. intros Hle.
  unfold _parseEscapeSequence.
  assert (Hq : (c1 ++ c2) !! (i + 2) = c1 !! (i + 2)).
  { apply lookup_app_l. destruct (bool_decide _); lia. }
  rewrite Hq.
  set (j := if bool_decide (c1 !! (i + 2) = Some QUESTION) then i + 2 + 1 else i + 2) in *.
  assert (Hp : collect_params (drop j (c1 ++ c2)) = collect_params (drop j c1)).
  { rewrite drop_app_le by lia. apply collect_params_app. rewrite length_drop. lia. }
  rewrite Hp.
  rewrite (lookup_app_l c1 c2) by lia.
  reflexivity.
Qed.

Lemma cut_loop_fuel fuel fuel' text i :
  length text - i ≤ fuel → length text - i ≤ fuel' →
  cut_loop fuel text i = cut_loop fuel' text i.
Proof.
  revert fuel' i. induction fuel as [|fuel IH]; intros [|fuel'] i Hf Hf'; simpl;
    try reflexivity;
    try (rewrite lookup_ge_None_2 by lia; reflexivity).
  destruct (text !! i) as [char|] eqn:Hi; [|done].
  assert (Hlt : i < length text) by (eapply lookup_lt_Some; eauto).
  pose proof (parse_next_gt text i new) as Hgt.
  repeat case_match; try reflexivity; apply IH; lia.
Qed.

Lemma cut_from_eq text i :
  cut_from text i =
  match text !! i with
  | None => false
  | Some char =>
      if (char =? ESC)%N then
        match text !! (i + 1) with
        | None => true
        | Some c =>
            if (c =? LBRACKET)%N then
              let j := fst (_parseEscapeSequence text i new) in
              if length text <? j then true else cut_from text j
            else cut_from text (i + 1)
        end
      else cut_from text (i + 1)
  end.
Proof.
  unfold cut_from.
  destruct (text !! i) as [char|] eqn:Hi.
  - assert (Hlt : i < length text) by (eapply lookup_lt_Some; eauto).
    destruct (length text - i) as [|n] eqn:Hn; [lia|]. simpl. rewrite Hi.
    pose proof (parse_next_gt text i new) as Hgt.
    repeat case_match; try reflexivity; apply cut_loop_fuel; lia.
  - apply lookup_ge_None_1 in Hi.
    replace (length text - i) with 0 by lia. reflexivity.
Qed.

(** The loop reads the text from its index on only. *)
Lemma write_from_shift pre text k t :
  write_from (pre ++ text) (length pre + k) t = write_from text k t.
Proof.
  remember (length text - k) as n eqn:Hn.
  revert k t Hn. induction (lt_wf n) as [n _ IH]. intros k t ->.
  rewrite (write_from_eq (pre ++ text)), (write_from_eq text).
  rewrite lookup_app_r by lia.
  replace (length pre + k - length pre) with k by lia.
  destruct (text !! k) as [char|] eqn:Hk; [|done].
  assert (Hlt : k < length text) by (eapply lookup_lt_Some; eauto).
  replace (length pre + k + 1) with (length pre + (k + 1)) by lia.
  rewrite lookup_app_r by lia.
  replace (length pre + (k + 1) - length pre) with (k + 1) by lia.
  destruct ((char =? ESC)%N && bool_decide (text !! (k + 1) = Some LBRACKET)).
  - rewrite parse_shift. simpl.
    pose proof (parse_next_gt text k t) as Hgt.
    eapply IH; [|reflexivity]. lia.
  - destruct (write_char char t) as [t'|]; simpl; [|done].
    eapply IH; [|reflexivity]. lia.
Qed.

(** When the scan of [c1] from [i] does not stop inside an escape sequence,
    the loop on [c1 ++ c2] reaches the end of [c1] in the state that the loop
    on [c1] alone ends in. *)
Lemma write_from_split c1 c2 i t :
  cut_from c1 i = false → i ≤ length c1 →
  write_from (c1 ++ c2) i t = write_from c1 i t ≫= write_from (c1 ++ c2) (length c1).
Proof.
  remember (length c1 - i) as n eqn:Hn.
  revert i t Hn. induction (lt_wf n) as [n _ IH]. intros i t -> Hcut Hi.
  rewrite cut_from_eq in Hcut.
  rewrite (write_from_eq c1 i).
  destruct (c1 !! i) as [char|] eqn:Hci.
  - assert (Hlt : i < length c1) by (eapply lookup_lt_Some; eauto).
    rewrite (write_from_eq (c1 ++ c2) i).
    rewrite (lookup_app_l c1 c2 i) by done. rewrite Hci.
    destruct (char =? ESC)%N eqn:Hesc; simpl.
    + destruct (c1 !! (i + 1)) as [c|] eqn:Hc1; [|done].
      assert (Hlt1 : i + 1 < length c1) by (eapply lookup_lt_Some; eauto).
      rewrite (lookup_app_l c1 c2 (i + 1)) by done. rewrite Hc1.
      destruct (c =? LBRACKET)%N eqn:Hlb.
      * apply N.eqb_eq in Hlb as ->.
        rewrite !bool_decide_eq_true_2 by done.
        cbv zeta in Hcut.
        destruct (length c1 <? fst (_parseEscapeSequence c1 i new)) eqn:Hj; [done|].
        apply Nat.ltb_ge in Hj.
        rewrite (parse_next_state_indep c1 i new t) in Hj, Hcut.
        rewrite parse_prefix by done.
        pose proof (parse_next_gt c1 i t) as Hgt.
        eapply IH; [|reflexivity|done|done]. lia.
      * assert (Hne : c ≠ LBRACKET) by (by apply N.eqb_neq).
        rewrite !bool_decide_eq_false_2 by congruence.
        destruct (write_char char t) as [t'|]; simpl; [|done].
        eapply IH; [|reflexivity|done|lia]. lia.
    + destruct (write_char char t) as [t'|]; simpl; [|done].
      eapply IH; [|reflexivity|done|lia]. lia.
  - apply lookup_ge_None_1 in Hci.
    assert (i = length c1) as -> by lia. reflexivity.
Qed.

(** Two chunks: one call on the concatenation is the two calls in turn. *)
Lemma write_app c1 c2 t :
  ends_in_escape c1 = false →
  write (c1 ++ c2) t = write c1 t ≫= write c2.
Proof.
  intros Hcut. rewrite !write_from_0.
  rewrite write_from_split; [|by unfold cut_from; rewrite Nat.sub_0_r|lia].
  destruct (write_from c1 0 t) as [t'|]; simpl; [|done].
  rewrite write_from_0.
  rewrite <- (write_from_shift c1 c2 0 t'). by rewrite Nat.add_0_r.
Qed.

Lemma cut_loop_no_escape fuel text i :
  ESC ∉ text → cut_loop fuel text i = false.
Proof.
  intros Hesc. revert i. induction fuel as [|fuel IH]; intros i; simpl; [done|].
  destruct (text !! i) as [char|] eqn:Hi; [|done].
  destruct (N.eqb_spec char ESC) as [->|_]; [|by apply IH].
  destruct Hesc. by eapply list_elem_of_lookup_2.
Qed.

(** A chunk without ESC never ends inside an escape sequence. *)
Lemma ends_in_escape_no_escape text : ESC ∉ text → ends_in_escape text = false.
Proof. apply cut_loop_no_escape. Qed.

End WriteLoop.

Lemma write_all_concat chunks t :
  Forall (fun chunk => ends_in_escape chunk = false) (removelast chunks) →
  write_all chunks t = write (concat chunks) t.
Proof.
  revert t. induction chunks as [|chunk chunks IH]; intros t Hclean.
  - reflexivity.
  - destruct chunks as [|chunk' chunks].
    + simpl. rewrite app_nil_r. by destruct (write chunk t).
    + change (removelast (chunk :: chunk' :: chunks))
        with (chunk :: removelast (chunk' :: chunks)) in Hclean.
      apply Forall_cons in Hclean as [Hchunk Hrest].
      change (concat (chunk :: chunk' :: chunks))
        with (chunk ++ concat (chunk' :: chunks)).
      rewrite write_app by done.
      change (write_all (chunk :: chunk' :: chunks) t)
        with (write chunk t ≫= write_all (chunk' :: chunks)).
      destruct (write chunk t) as [t'|]; simpl; [|done].
      by apply IH.
Qed.

(** C2, as the code has it: when no chunk but the last ends inside an escape
    sequence (on a lone ESC, or after ESC [ and before the command byte),
    writing the chunks one by one into a fresh buffer and taking the snapshot
    gives what writing their concatenation into a fresh buffer gives. *)
Theorem write_chunks_snapshot (chunks : list (list N)) :
  Forall (fun chunk => ends_in_escape chunk = false) (removelast chunks) →
  write_all chunks new ≫= toString = write (concat chunks) new ≫= toString.
Proof. intros Hclean. by rewrite write_all_concat. Qed.

Lemma write_chunks_snapshot_witness :
  write_all [str "ab" ++ [ESC] ++ str "[1D"; [ESC] ++ str "[Kc"; [ESC]] new ≫= toString
  = write (concat [str "ab" ++ [ESC] ++ str "[1D"; [ESC] ++ str "[Kc"; [ESC]]) new
      ≫= toString.
Proof.
  apply (write_chunks_snapshot
           [str "ab" ++ [ESC] ++ str "[1D"; [ESC] ++ str "[Kc"; [ESC]]).
  repeat constructor.
Defined.

(** C2 as stated fails: a chunk boundary between ESC and [ turns the escape
    sequence into printed text. *)
Lemma write_chunks_split_escape :
  write_all [str "a" ++ [ESC]; str "[Db"] new ≫= toString = Some (str "a[Db")
  ∧ write (concat [str "a" ++ [ESC]; str "[Db"]) new ≫= toString = Some (str "b")
  ∧ write_all [str "a" ++ [ESC]; str "[Db"] new ≫= toString
    ≠ write (concat [str "a" ++ [ESC]; str "[Db"]) new ≫= toString.
Proof. vm_compute. repeat split; discriminate. Qed.

(** C3: ESC [ 0 K and ESC [ 0 J take the branch of the parameter 1.  The
    first parameter 0 is replaced by the default 1 before the command is
    looked at, so the test [n === 0] never holds: the sequences erase from
    the start of the line (of the screen) through the cursor, where ESC [ K
    and ESC [ J erase from the cursor to the end. *)
Theorem csi_zero_param_erases_from_start (t : TerminalBuffer) :
  _parseEscapeSequence ([ESC] ++ str "[0K") 0 t = (4, _clearFromStartOfLine t)
  ∧ _parseEscapeSequence ([ESC] ++ str "[K") 0 t = (3, _clearToEndOfLine t)
  ∧ _parseEscapeSequence ([ESC] ++ str "[0J") 0 t = (4, _clearFromStartOfScreen t)
  ∧ _parseEscapeSequence ([ESC] ++ str "[J") 0 t = (3, _clearToEndOfScreen t)
  ∧ processTerminalOutput (str "abcdef" ++ [CR; ESC] ++ str "[2C" ++ [ESC] ++ str "[0K")
    = Some (str "   def")
  ∧ processTerminalOutput (str "abcdef" ++ [CR; ESC] ++ str "[2C" ++ [ESC] ++ str "[K")
    = Some (str "ab").
Proof. repeat split; reflexivity. Qed.

(** C8, as the code has it: "hi\rHELLO" projects to "HELLO"; after
    "line1\nline2\r\x1b[1Aover" row 0 is "over1" (the cursor moves up and the
    four characters overwrite "line", the fifth stays) and row 1 is "line2". *)
Theorem carriage_return_and_cursor_up :
  processTerminalOutput (str "hi" ++ [CR] ++ str "HELLO") = Some (str "HELLO")
  ∧ (_lines <$> write (str "line1" ++ [LF] ++ str "line2" ++ [CR; ESC] ++ str "[1Aover") new)
    = Some [Some (str "over1"); Some (str "line2")]
  ∧ processTerminalOutput (str "line1" ++ [LF] ++ str "line2" ++ [CR; ESC] ++ str "[1Aover")
    = Some (str "over1" ++ [LF] ++ str "line2").
Proof. repeat split; reflexivity. Qed.

(** C8 as stated fails: row 0 is not "over " before trimming. *)
Lemma cursor_up_row0_not_blank_padded :
  (write (str "line1" ++ [LF] ++ str "line2" ++ [CR; ESC] ++ str "[1Aover") new
     ≫= fun t => array_get (_lines t) 0) = Some (str "over1")
  ∧ str "over1" ≠ str "over ".
Proof. split; [reflexivity | discriminate]. Qed.
Import Terminal.

Section Sound.

















End Sound.

Section SoundWrite.




End SoundWrite.


Section Ignored.

Lemma collect_params_stop params c rest :
  Forall (fun c => is_param c = true) params → is_param c = false →
  collect_params (params ++ c :: rest) = params.
Proof.
  intros Hparams Hc. induction Hparams as [|p params Hp _ IH]; simpl.
  - by rewrite Hc.
  - by rewrite Hp, IH.
Qed.

Lemma collect_params_end params :
  Forall (fun c => is_param c = true) params → collect_params params = params.
Proof.
  intros Hparams. induction Hparams as [|p params Hp _ IH]; simpl; [done|].
  by rewrite Hp, IH.
Qed.

Lemma params_head_not_question params c rest :
  Forall (fun c => is_param c = true) params → c ≠ QUESTION →
  (params ++ c :: rest) !! 0 ≠ Some QUESTION.
Proof.
  intros Hparams Hc. destruct Hparams as [|p params Hp _]; simpl.
  - congruence.
  - intros [= ->]. done.
Qed.

Lemma write_from_start pre text t :
  write_from (pre ++ text) (length pre) t = write text t.
Proof.
  rewrite write_from_0, <- (write_from_shift pre text 0 t). by rewrite Nat.add_0_r.
Qed.

End Ignored.

(** Colours and styles leave no trace: an SGR sequence, ESC [ parameters m,
    changes nothing in the buffer, so writing it in front of a text is
    writing the text. *)
Theorem write_sgr_ignored (params rest : list N) (t : TerminalBuffer) :
  Forall (fun c => is_param c = true) params →
  write ([ESC; LBRACKET] ++ params ++ [109%N] ++ rest) t = write rest t.
Proof.
  intros Hparams.
  rewrite write_from_0, write_from_eq. simpl.
  assert (Hparse : _parseEscapeSequence (ESC :: LBRACKET :: params ++ 109%N :: rest) 0 t
                   = (2 + length params + 1, t)).
  { unfold _parseEscapeSequence.
    change ((ESC :: LBRACKET :: params ++ 109%N :: rest) !! (0 + 2))
      with ((params ++ 109%N :: rest) !! 0).
    rewrite bool_decide_eq_false_2 by (by apply params_head_not_question).
    change (drop (0 + 2) (ESC :: LBRACKET :: params ++ 109%N :: rest))
      with (params ++ 109%N :: rest).
    cbv zeta. rewrite collect_params_stop by done.
    change ((ESC :: LBRACKET :: params ++ 109%N :: rest) !! (0 + 2 + length params))
      with ((params ++ 109%N :: rest) !! (length params)).
    rewrite list_lookup_middle by done.
    rewrite bool_decide_eq_true_2 by done. reflexivity. }
  rewrite Hparse. simpl.
  rewrite <- (write_from_start (ESC :: LBRACKET :: params ++ [109%N]) rest t).
  rewrite <- !app_comm_cons, <- app_assoc. simpl.
  f_equal. rewrite length_app. simpl. lia.
Qed.

Lemma write_sgr_ignored_witness :
  write ([ESC; LBRACKET] ++ str "1;31" ++ [109%N] ++ str "error") new
  = write (str "error") new.
Proof.
  apply (write_sgr_ignored (str "1;31") (str "error") new).
  repeat constructor.
Defined.

(** Private-mode sequences leave no trace either: ESC [ ? parameters and any
    final byte, such as the cursor show and hide sequences, change nothing. *)
Theorem write_private_mode_ignored (params rest : list N) (cmd : N) (t : TerminalBuffer) :
  Forall (fun c => is_param c = true) params → is_param cmd = false →
  write ([ESC; LBRACKET; QUESTION] ++ params ++ [cmd] ++ rest) t = write rest t.
Proof.
  intros Hparams Hcmd.
  rewrite write_from_0, write_from_eq. simpl.
  rewrite drop_0, collect_params_stop by done.
  rewrite <- (write_from_start (ESC :: LBRACKET :: QUESTION :: params ++ [cmd]) rest t).
  rewrite <- !app_comm_cons, <- app_assoc. simpl.
  f_equal. rewrite length_app. simpl. lia.
Qed.

Lemma write_private_mode_ignored_witness :
  write ([ESC; LBRACKET; QUESTION] ++ str "25" ++ [108%N] ++ str "50%") new
  = write (str "50%") new.
Proof.
  apply (write_private_mode_ignored (str "25") (str "50%") 108%N new).
  - repeat constructor.
  - reflexivity.
Defined.

Section Snapshot.

Lemma trimStart_head s c : head (trimStart s) = Some c → is_whitespace c = false.
Proof.
  induction s as [|d s IH]; simpl; [done|].
  destruct (is_whitespace d) eqn:Hd; [done|]. simpl. by intros [= <-].
Qed.

Lemma trimEnd_last s c : last (trimEnd s) = Some c → is_whitespace c = false.
Proof. unfold trimEnd. rewrite last_reverse. apply trimStart_head. Qed.

Lemma pop_empty_suffix l : pop_empty l `suffix_of` l.
Proof.
  induction l as [|[|c x] l IH]; simpl; [done| |done].
  by apply suffix_cons_r.
Qed.

Lemma pop_empty_head l x r : pop_empty l = x :: r → x ≠ [].
Proof.
  induction l as [|[|c y] l IH]; simpl; [done|done|]. by intros [= <- _].
Qed.

Lemma join_last sep ps p : p ≠ [] → last (join sep (ps ++ [p])) = last p.
Proof.
  intros Hp. induction ps as [|q ps IH]; simpl; [done|].
  destruct (ps ++ [p]) as [|q' l] eqn:Hl; [by destruct ps|].
  rewrite !last_app, IH.
  destruct (last p) eqn:Hlast; [done|]. by apply last_None in Hlast.
Qed.

(** The last character of the snapshot is not white space. *)
Lemma toString_last (t : TerminalBuffer) (s : list N) (c : N) :
  toString t = Some s → last s = Some c → is_whitespace c = false.
Proof.
  unfold toString. intros Hs Hlast.
  destruct (mapM _ _) as [output|] eqn:Hmap; [|done]. simpl in Hs.
  injection Hs as <-.
  destruct (pop_empty (reverse output)) as [|x r] eqn:Hpop; [done|].
  rewrite reverse_cons, join_last in Hlast by (by eapply pop_empty_head).
  assert (Hx : x ∈ output).
  { apply elem_of_reverse. eapply elem_of_suffix; [|apply pop_empty_suffix].
    rewrite Hpop. by left. }
  apply mapM_Some_1 in Hmap.
  apply list_elem_of_lookup in Hx as [i Hi].
  destruct (Forall2_lookup_r _ _ _ _ _ Hmap Hi) as (line & _ & Hline).
  destruct line as [l|]; [|done]. injection Hline as <-.
  by eapply trimEnd_last.
Qed.

End Snapshot.

(** The snapshot never ends in white space or in a newline: trailing spaces
    of every line and trailing empty lines are dropped. *)
Theorem toString_no_trailing_whitespace (t : TerminalBuffer) (s : list N) (c : N) :
  toString t = Some s → last s = Some c → is_whitespace c = false.
Proof. apply toString_last. Qed.

Lemma toString_no_trailing_whitespace_witness :
  toString (mkTerminalBuffer
              [Some (str "a  "); Some (str " bcd "); Some (str "  "); Some []] 1 2 None)
  = Some (str "a" ++ [LF] ++ str " bcd")
  ∧ is_whitespace 100%N = false.
Proof.
  split; [reflexivity|].
  apply (toString_no_trailing_whitespace
           (mkTerminalBuffer [Some (str "a  "); Some (str " bcd "); Some (str "  "); Some []]
              1 2 None)
           (str "a" ++ [LF] ++ str " bcd") 100%N).
  - reflexivity.
  - reflexivity.
Defined.

Section PlainText.

Lemma write_cons char text t :
  char ≠ ESC → write (char :: text) t = write_char char t ≫= write text.
Proof.
  intros Hchar. rewrite write_from_0, write_from_eq. simpl.
  rewrite (proj2 (N.eqb_neq _ _) Hchar). simpl.
  destruct (write_char char t) as [t'|]; simpl; [|done].
  apply (write_from_start [char] text t').
Qed.

Lemma write_nil t : write [] t = Some t.
Proof. reflexivity. Qed.

Lemma writeChar_at_end (ls : list (list N)) cur char saved :
  _writeChar char (mkTerminalBuffer (Some <$> (ls ++ [cur])) (length ls) (length cur) saved)
  = Some (mkTerminalBuffer (Some <$> (ls ++ [cur ++ [char]]))
            (length ls) (S (length cur)) saved).
Proof.
  unfold _writeChar, _ensureRow, array_get. simpl.
  rewrite length_fmap, length_app. simpl.
  replace (S (length ls) - (length ls + 1)) with 0 by lia. simpl.
  rewrite app_nil_r, list_lookup_fmap, lookup_app_r, Nat.sub_diag by lia. simpl.
  replace (S (length cur) - length cur) with 1 by lia. simpl.
  rewrite insert_app_r_alt, Nat.sub_diag by lia. simpl.
  do 2 f_equal.
  rewrite !fmap_app. simpl.
  rewrite insert_app_r_alt by (rewrite length_fmap; lia).
  by rewrite length_fmap, Nat.sub_diag.
Qed.

Lemma write_char_printable char t :
  (32 ≤ char)%N → write_char char t = _writeChar char t.
Proof.
  intros Hc. unfold write_char, CR, LF, BS, TAB.
  repeat match goal with
         | |- context [(char =? ?k)%N] =>
             destruct (N.eqb_spec char k) as [->|_]; [lia|]
         end.
  by rewrite (proj2 (N.leb_le _ _) Hc).
Qed.

Lemma last_cons_default {A} (x : A) l d d' :
  List.last (x :: l) d = List.last (x :: l) d'.
Proof. revert x. induction l as [|y l IH]; intros x; [done|]. apply (IH y). Qed.

Lemma split_nonempty sep s : split sep s ≠ [].
Proof.
  induction s as [|c s IH]; simpl; [done|].
  destruct (c =? sep)%N; [done|]. by destruct (split sep s).
Qed.

Lemma write_plain_from text (ls : list (list N)) cur saved :
  Forall (fun c => c = LF ∨ (32 ≤ c)%N) text →
  write text (mkTerminalBuffer (Some <$> (ls ++ [cur])) (length ls) (length cur) saved)
  = match split LF text with
    | w :: ws =>
        Some (mkTerminalBuffer (Some <$> (ls ++ (cur ++ w) :: ws))
                (length ls + length ws) (length (List.last ws (cur ++ w))) saved)
    | [] => None
    end.
Proof.
  intros Htext. revert ls cur.
  induction Htext as [|c text Hc _ IH]; intros ls cur.
  - simpl. rewrite write_nil, app_nil_r, Nat.add_0_r. done.
  - assert (c ≠ ESC) by (unfold ESC, LF in *; destruct Hc; lia).
    rewrite write_cons by done.
    destruct Hc as [->|Hc].
    + change (write_char LF ?t) with (Some (_ensureRow (_row t + 1) (set_col 0 (set_row (_row t + 1) t)))).
      unfold _ensureRow. simpl.
      rewrite length_fmap, length_app. simpl.
      replace (S (length ls + 1) - (length ls + 1)) with 1 by lia. simpl.
      specialize (IH (ls ++ [cur]) []).
      rewrite length_app in IH. simpl in IH.
      rewrite fmap_app in IH. simpl in IH.
      unfold set_lines. simpl. rewrite IH.
      pose proof (split_nonempty LF text) as Hne.
      destruct (split LF text) as [|w ws]; [done|].
      rewrite app_nil_r, <- app_assoc. simpl.
      f_equal. f_equal; [lia|].
      destruct ws as [|w' ws]; [done|]. f_equal. apply last_cons_default.
    + rewrite write_char_printable, writeChar_at_end by done. simpl.
      specialize (IH ls (cur ++ [c])).
      rewrite length_app in IH. simpl in IH.
      replace (length cur + 1) with (S (length cur)) in IH by lia.
      rewrite IH.
      assert (Hneq : (c =? LF)%N = false) by (apply N.eqb_neq; unfold LF; lia).
      rewrite Hneq.
      pose proof (split_nonempty LF text) as Hne.
      destruct (split LF text) as [|w ws]; [done|].
      by rewrite <- app_assoc.
Qed.

End PlainText.

(** Plain text is laid out line by line: for a text of printable characters
    and newlines, the rows of a fresh buffer after [write] are the lines of
    the text, and the cursor stands after the last character of the last
    line. *)
Theorem write_plain_text (text : list N) :
  Forall (fun c => c = LF ∨ (32 ≤ c)%N) text →
  write text new
  = Some (mkTerminalBuffer (Some <$> split LF text)
            (length (split LF text) - 1)
            (length (List.last (split LF text) [])) None).
Proof.
  intros Htext.
  pose proof (write_plain_from text [] [] None Htext) as Hw.
  pose proof (split_nonempty LF text) as Hne.
  change (mkTerminalBuffer (Some <$> [] ++ [[]]) (length []) (length []) None)
    with new in Hw.
  rewrite Hw. destruct (split LF text) as [|w ws]; [done|]. simpl.
  f_equal. f_equal; [lia|].
  destruct ws as [|w' ws]; [done|]. f_equal. apply last_cons_default.
Qed.

Lemma write_plain_text_witness :
  write (str "ab" ++ [LF] ++ str "c d") new
  = Some (mkTerminalBuffer (Some <$> split LF (str "ab" ++ [LF] ++ str "c d"))
            (length (split LF (str "ab" ++ [LF] ++ str "c d")) - 1)
            (length (List.last (split LF (str "ab" ++ [LF] ++ str "c d")) [])) None).
Proof.
  apply (write_plain_text (str "ab" ++ [LF] ++ str "c d")).
  simpl. repeat (apply Forall_cons; split; [first [by left | by right]|]).
  apply Forall_nil_2.
Defined.

Section Overwrite.

Lemma printable_no_escape text : Forall (fun c => (32 ≤ c)%N) text → ESC ∉ text.
Proof.
  intros Htext Hesc. rewrite Forall_forall in Htext.
  specialize (Htext _ Hesc). unfold ESC in Htext. lia.
Qed.

Lemma overwrite_line (done_ a : list N) (char : N) :
  <[length done_ := char]>
    ((done_ ++ drop (length done_) a)
       ++ replicate (S (length done_) - length (done_ ++ drop (length done_) a)) SPACE)
  = (done_ ++ [char]) ++ drop (S (length done_)) a.
Proof.
  rewrite length_app, length_drop.
  destruct (decide (length done_ < length a)) as [Hlt|Hge].
  - replace (S (length done_) - (length done_ + (length a - length done_))) with 0 by lia.
    simpl. rewrite app_nil_r.
    rewrite insert_app_r_alt, Nat.sub_diag by lia.
    destruct (drop (length done_) a) as [|x rest] eqn:Hdrop.
    { apply (f_equal length) in Hdrop. rewrite length_drop in Hdrop. simpl in Hdrop. lia. }
    simpl. rewrite <- app_assoc. simpl. do 2 f_equal.
    rewrite <- (drop_drop a 1 (length done_)) || idtac.
    replace (S (length done_)) with (length done_ + 1) by lia.
    rewrite <- drop_drop, Hdrop. done.
  - rewrite !drop_ge by lia. rewrite !app_nil_r.
    replace (S (length done_) - (length done_ + (length a - length done_))) with 1 by lia.
    simpl. rewrite insert_app_r_alt, Nat.sub_diag by lia. done.
Qed.

Lemma write_over (b done_ a : list N) saved :
  Forall (fun c => (32 ≤ c)%N) b →
  write b (mkTerminalBuffer [Some (done_ ++ drop (length done_) a)] 0 (length done_) saved)
  = Some (mkTerminalBuffer [Some ((done_ ++ b) ++ drop (length (done_ ++ b)) a)]
            0 (length (done_ ++ b)) saved).
Proof.
  intros Hb. revert done_. induction Hb as [|c b Hc _ IH]; intros done_.
  - by rewrite write_nil, app_nil_r.
  - rewrite write_cons by (unfold ESC; lia).
    rewrite write_char_printable by done.
    unfold _writeChar, _ensureRow, array_get. simpl.
    rewrite overwrite_line.
    specialize (IH (done_ ++ [c])).
    rewrite length_app in IH. simpl in IH.
    replace (length done_ + 1) with (S (length done_)) in IH by lia.
    unfold set_lines in *. simpl. rewrite IH.
    rewrite <- !app_assoc. simpl.
    rewrite !length_app. simpl. done.
Qed.

Lemma toString_one_line line row col saved :
  toString (mkTerminalBuffer [Some line] row col saved) = Some (trimEnd line).
Proof.
  unfold toString. simpl. by destruct (trimEnd line).
Qed.

End Overwrite.

(** A carriage return makes the next text overwrite the line from its first
    column: after a line [a], a carriage return and a text [b] of printable
    characters, the row holds [b] followed by what is left of [a] beyond the
    length of [b].  A progress bar that redraws itself after a carriage
    return so stays one line. *)
Theorem write_carriage_return_overwrites (a b : list N) :
  Forall (fun c => (32 ≤ c)%N) a → Forall (fun c => (32 ≤ c)%N) b →
  write (a ++ [CR] ++ b) new
  = Some (mkTerminalBuffer [Some (b ++ drop (length b) a)] 0 (length b) None)
  ∧ processTerminalOutput (a ++ [CR] ++ b) = Some (trimEnd (b ++ drop (length b) a)).
Proof.
  intros Ha Hb.
  assert (Hw : write (a ++ [CR] ++ b) new
               = Some (mkTerminalBuffer [Some (b ++ drop (length b) a)] 0 (length b) None)).
  { rewrite write_app by (by apply ends_in_escape_no_escape, printable_no_escape).
    pose proof (write_over a [] [] None Ha) as Hfirst.
    simpl in Hfirst. rewrite drop_nil, app_nil_r in Hfirst.
    change (mkTerminalBuffer [Some []] 0 0 None) with new in Hfirst.
    rewrite Hfirst. simpl.
    change ([CR] ++ b) with (CR :: b).
    rewrite write_cons by done. simpl.
    apply (write_over b [] a None Hb). }
  split; [done|].
  unfold processTerminalOutput. rewrite Hw. simpl. apply toString_one_line.
Qed.

Lemma write_carriage_return_overwrites_witness :
  write (str "[##   ] 40%" ++ [CR] ++ str "[#### ] 80%") new
  = Some (mkTerminalBuffer
            [Some (str "[#### ] 80%" ++ drop (length (str "[#### ] 80%")) (str "[##   ] 40%"))]
            0 (length (str "[#### ] 80%")) None)
  ∧ processTerminalOutput (str "[##   ] 40%" ++ [CR] ++ str "[#### ] 80%")
    = Some (trimEnd (str "[#### ] 80%"
                       ++ drop (length (str "[#### ] 80%")) (str "[##   ] 40%"))).
Proof.
  apply (write_carriage_return_overwrites (str "[##   ] 40%") (str "[#### ] 80%")).
  - simpl. repeat (apply Forall_cons; split; [done|]). apply Forall_nil_2.
  - simpl. repeat (apply Forall_cons; split; [done|]). apply Forall_nil_2.
Defined.


(** ** The document writer *)

Import Document.

Section Search.

Lemma starts_with_spec pat s :
  starts_with pat s = true ↔ ∃ post, s = pat ++ post.
Proof.
  revert s. induction pat as [|p pat IH]; intros s; simpl.
  - split; [intros _; by exists s | done].
  - destruct s as [|c s]; simpl.
    + split; [done | intros [post Hpost]; discriminate].
    + rewrite andb_true_iff, N.eqb_eq, IH. split.
      * intros [-> [post ->]]. by exists post.
      * intros [post Hpost]. injection Hpost as -> ->. eauto.
Qed.

(** A found index is the first one at which the pattern occurs. *)
Lemma index_from_Some pat rest k m :
  index_from pat rest k = Some m →
  ∃ d, m = k + d ∧ d ≤ length rest ∧ starts_with pat (drop d rest) = true
       ∧ ∀ d', d' < d → starts_with pat (drop d' rest) = false.
Proof.
  revert k. induction rest as [|c rest IH]; intros k; simpl.
  - destruct (starts_with pat []) eqn:Hs; [|done].
    intros [= <-]. exists 0. repeat split; [lia|lia|done|lia].
  - destruct (starts_with pat (c :: rest)) eqn:Hs.
    + intros [= <-]. exists 0. repeat split; [lia|lia|done|lia].
    + intros Hm. apply IH in Hm as (d & -> & Hd & Hat & Hmin).
      exists (S d). repeat split; [lia|lia|done|].
      intros [|d'] Hlt; simpl; [done|]. apply Hmin. lia.
Qed.

(** Nothing found: the pattern occurs nowhere. *)
Lemma index_from_None pat rest k d :
  index_from pat rest k = None → d ≤ length rest →
  starts_with pat (drop d rest) = false.
Proof.
  revert k d. induction rest as [|c rest IH]; intros k d; simpl.
  - destruct (starts_with pat []) eqn:Hs; [done|].
    intros _ Hd. by rewrite drop_nil.
  - destruct (starts_with pat (c :: rest)) eqn:Hs; [done|].
    intros Hnone Hd. destruct d as [|d]; simpl; [done|].
    eapply IH; [done|lia].
Qed.

Lemma indexOf_Some text pat from m :
  indexOf text pat from = Some m →
  Nat.min from (length text) ≤ m ≤ length text
  ∧ starts_with pat (drop m text) = true.
Proof.
  unfold indexOf. intros Hm.
  apply index_from_Some in Hm as (d & -> & Hd & Hat & _).
  rewrite length_drop in Hd. rewrite drop_drop in Hat.
  split; [lia | done].
Qed.

Lemma indexOf_first text pat from m k :
  indexOf text pat from = Some m →
  from ≤ k → k ≤ length text → starts_with pat (drop k text) = true → m ≤ k.
Proof.
  unfold indexOf. intros Hm Hfrom Hk Hat.
  apply index_from_Some in Hm as (d & -> & Hd & _ & Hmin).
  destruct (decide (Nat.min from (length text) + d ≤ k)) as [|Hgt]; [done|].
  specialize (Hmin (k - Nat.min from (length text))).
  rewrite drop_drop in Hmin.
  replace (Nat.min from (length text) + (k - Nat.min from (length text))) with k in Hmin by lia.
  rewrite Hmin in Hat by lia. done.
Qed.

Lemma indexOf_None text pat from k :
  indexOf text pat from = None →
  from ≤ k → k ≤ length text → starts_with pat (drop k text) = false.
Proof.
  unfold indexOf. intros Hnone Hfrom Hk.
  pose proof (index_from_None pat _ _ (k - Nat.min from (length text)) Hnone) as H.
  rewrite drop_drop, length_drop in H.
  replace (Nat.min from (length text) + (k - Nat.min from (length text))) with k in H by lia.
  apply H. lia.
Qed.

Lemma starts_with_char c s :
  starts_with [c] s = true ↔ ∃ s', s = c :: s'.
Proof. rewrite starts_with_spec. simpl. done. Qed.

Lemma elem_of_drop_index (c : N) (s : list N) :
  c ∈ s ↔ ∃ d, d < length s ∧ starts_with [c] (drop d s) = true.
Proof.
  split.
  - intros [d Hd]%list_elem_of_lookup. exists d.
    split; [by eapply lookup_lt_Some|].
    apply starts_with_char. exists (drop (S d) s).
    by apply drop_S.
  - intros (d & Hd & [s' Hs']%starts_with_char).
    apply list_elem_of_lookup. exists d.
    rewrite <- (Nat.add_0_r d), <- lookup_drop, Hs'. done.
Qed.

(** The search for the closing fence ends before it runs out of passes. *)
Lemma closing_loop_fuel fuel fuel' text searchPos :
  length text - searchPos ≤ fuel → length text - searchPos ≤ fuel' →
  closing_loop fuel text searchPos = closing_loop fuel' text searchPos.
Proof.
  revert fuel' searchPos.
  induction fuel as [|fuel IH]; intros [|fuel'] searchPos Hf Hf'; simpl;
    try reflexivity;
    try (by rewrite (proj2 (Nat.ltb_ge _ _)) by lia).
  destruct (searchPos <? length text) eqn:Hlt; [|done].
  apply Nat.ltb_lt in Hlt.
  destruct (indexOf text FENCE searchPos) as [nextBackticks|] eqn:Hnext; [|done].
  apply indexOf_Some in Hnext as [Hrange _].
  destruct (_ || _); [done|].
  apply IH; lia.
Qed.

(** The closing fence lies at or after the place the search starts from. *)
Lemma closing_loop_range fuel text searchPos closingPos :
  closing_loop fuel text searchPos = Some closingPos →
  searchPos ≤ closingPos ≤ length text.
Proof.
  revert searchPos. induction fuel as [|fuel IH]; intros searchPos; simpl; [done|].
  destruct (searchPos <? length text) eqn:Hlt; [|done].
  apply Nat.ltb_lt in Hlt.
  destruct (indexOf text FENCE searchPos) as [nextBackticks|] eqn:Hnext; [|done].
  apply indexOf_Some in Hnext as [Hrange _].
  destruct (_ || _).
  - intros [= <-]. lia.
  - intros H%IH. lia.
Qed.

Lemma findOutputBlock_range text execId block :
  findOutputBlock text execId = Some block →
  markerStart block < contentStart block
  ∧ contentStart block ≤ contentEnd block ≤ length text.
Proof.
  unfold findOutputBlock.
  destruct (indexOf text _ 0) as [ms|] eqn:Hms; [|done].
  destruct (indexOf text [LF] ms) as [nl|] eqn:Hnl; [|done].
  intros [= <-]. simpl.
  apply indexOf_Some in Hms as [Hms _].
  apply indexOf_Some in Hnl as [Hnl [s' Hs']%starts_with_char].
  assert (nl < length text).
  { apply (f_equal length) in Hs'. rewrite length_drop in Hs'. simpl in Hs'. lia. }
  destruct (closing_loop _ _ _) as [closingPos|] eqn:Hc; simpl.
  - apply closing_loop_range in Hc. lia.
  - lia.
Qed.

End Search.

(** C5, as the code has it: a block is found exactly when the text holds
    the string ```output:<execId> somewhere, with a newline at or after the
    place where it starts.  The string need not be a whole line (a marker of
    a longer id that begins with [execId] matches as well), and no closing
    fence is needed. *)
Theorem findOutputBlock_found_iff (text execId : list N) :
  is_Some (findOutputBlock text execId) ↔
  ∃ pre post, text = pre ++ marker execId ++ post ∧ LF ∈ marker execId ++ post.
Proof.
  unfold findOutputBlock. split.
  - destruct (indexOf text (marker execId) 0) as [ms|] eqn:Hms;
      [|by intros [? ?]].
    destruct (indexOf text [LF] ms) as [nl|] eqn:Hnl; [|by intros [? ?]].
    intros _.
    apply indexOf_Some in Hms as [Hms [post Hpost]%starts_with_spec].
    exists (take ms text), post. split.
    + by rewrite <- Hpost, take_drop.
    + rewrite <- Hpost.
      apply indexOf_Some in Hnl as [Hnl Hat].
      apply elem_of_drop_index. exists (nl - ms).
      rewrite drop_drop, length_drop.
      replace (ms + (nl - ms)) with nl by lia.
      split; [|done].
      apply starts_with_char in Hat as [s' Hs'].
      apply (f_equal length) in Hs'. rewrite length_drop in Hs'. simpl in Hs'. lia.
  - intros (pre & post & -> & Hlf).
    assert (Hat : starts_with (marker execId)
                    (drop (length pre) (pre ++ marker execId ++ post)) = true).
    { rewrite drop_app_length. apply starts_with_spec. by exists post. }
    destruct (indexOf (pre ++ marker execId ++ post) (marker execId) 0)
      as [ms|] eqn:Hms.
    2:{ eapply indexOf_None in Hms; [by rewrite Hms in Hat|lia|].
        rewrite length_app. lia. }
    assert (Hle : ms ≤ length pre).
    { eapply indexOf_first; [done|lia| |done]. rewrite length_app. lia. }
    destruct (indexOf (pre ++ marker execId ++ post) [LF] ms) as [nl|] eqn:Hnl;
      [done|].
    exfalso.
    apply elem_of_drop_index in Hlf as (d & Hd & Hc).
    eapply (indexOf_None _ _ _ (length pre + d)) in Hnl; [|lia|].
    + rewrite <- drop_drop, drop_app_length in Hnl. by rewrite Hnl in Hc.
    + rewrite length_app. lia.
Qed.

(** C5 as stated fails: the only marker in the text is that of exec-12,
    no line is the marker of exec-1, and the block is found for exec-1. *)
Lemma findOutputBlock_matches_longer_id :
  findOutputBlock (str "```output:exec-12" ++ [LF] ++ str "hi" ++ [LF] ++ str "```")
    (str "exec-1") = Some (mkOutputBlock 0 18 21)
  ∧ ¬ has_marker_line
        (str "```output:exec-12" ++ [LF] ++ str "hi" ++ [LF] ++ str "```")
        (str "exec-1").
Proof.
  split; [reflexivity|].
  unfold has_marker_line. vm_compute.
  intros H. repeat (apply elem_of_cons in H as [H|H]; [discriminate|]).
  by apply elem_of_nil in H.
Qed.

(** C4, as the code has it: when the block exists, [replaceOutput] leaves the
    text with [content] in place of the span [contentStart, contentEnd), and
    it does so by two separate operations on the shared text, a deletion
    (when the span is not empty) and an insertion (when [content] is not
    empty), each committed as a transaction of its own: the text with the
    span emptied is committed before the text with the new content. *)
Theorem replaceOutput_two_transactions
    (execId new_content : list N) (y : YText) (block : OutputBlock) :
  findOutputBlock (content y) execId = Some block →
  replaceOutput execId new_content y =
  (true,
   mkYText
     (take (contentStart block) (content y) ++ new_content
        ++ drop (contentEnd block) (content y))
     (committed y
        ++ (if contentStart block <? contentEnd block
            then [take (contentStart block) (content y)
                    ++ drop (contentEnd block) (content y)]
            else [])
        ++ (if bool_decide (new_content = []) then []
            else [take (contentStart block) (content y) ++ new_content
                    ++ drop (contentEnd block) (content y)]))).
Proof.
  intros Hblock. unfold replaceOutput. rewrite Hblock.
  apply findOutputBlock_range in Hblock as (_ & Hse & Hlen).
  destruct y as [text log]. simpl in *.
  set (cs := contentStart block) in *. set (ce := contentEnd block) in *.
  replace (0 <? ce - cs) with (cs <? ce)
    by (destruct (Nat.ltb_spec cs ce), (Nat.ltb_spec 0 (ce - cs)); done || lia).
  destruct (Nat.ltb_spec cs ce) as [Hlt|Hge].
  - unfold ytext_delete. destruct (ce - cs) as [|n] eqn:Hn; [lia|].
    replace (cs + S n) with ce by lia. simpl.
    unfold ytext_insert. simpl.
    rewrite take_app_length' by (rewrite length_take; lia).
    rewrite drop_app_length' by (rewrite length_take; lia).
    destruct new_content as [|c new_content]; simpl.
    + done.
    + by rewrite <- (assoc_L (++) log).
  - assert (ce = cs) as -> by lia.
    unfold ytext_insert.
    destruct new_content as [|c new_content]; simpl.
    + by rewrite take_drop, app_nil_r.
    + done.
Qed.

Lemma replaceOutput_two_transactions_witness :
  replaceOutput (str "e") (str "new")
    (mkYText (str "```output:e" ++ [LF] ++ str "old" ++ [LF] ++ str "```") [])
  = (true,
     mkYText (str "```output:e" ++ [LF] ++ str "new```")
       [str "```output:e" ++ [LF] ++ str "```";
        str "```output:e" ++ [LF] ++ str "new```"]).
Proof.
  apply (replaceOutput_two_transactions (str "e") (str "new")
           (mkYText (str "```output:e" ++ [LF] ++ str "old" ++ [LF] ++ str "```") [])
           (mkOutputBlock 0 12 16)).
  reflexivity.
Defined.

(** C4 as stated fails: replacing "old\n" by "new" commits two
    transactions, and the first leaves the region empty. *)
Lemma replaceOutput_commits_emptied_region :
  committed
    (snd (replaceOutput (str "e") (str "new")
            (mkYText (str "```output:e" ++ [LF] ++ str "old" ++ [LF] ++ str "```") [])))
  = [str "```output:e" ++ [LF] ++ str "```";
     str "```output:e" ++ [LF] ++ str "new```"]
  ∧ getOutputContent (str "e")
      (mkYText (str "```output:e" ++ [LF] ++ str "```") []) = Some [].
Proof. split; reflexivity. Qed.

(** A block that [findOutputBlock] returns lies inside the text: the marker
    starts before the content, and the content span is well formed and ends
    at or before the end of the text. *)
Theorem findOutputBlock_bounds (text execId : list N) (block : OutputBlock) :
  findOutputBlock text execId = Some block →
  markerStart block < contentStart block
  ∧ contentStart block ≤ contentEnd block
  ∧ contentEnd block ≤ length text.
Proof.
  intros Hblock. apply findOutputBlock_range in Hblock. lia.
Qed.

Lemma findOutputBlock_bounds_witness :
  0 < 18 ∧ 18 ≤ 21
  ∧ 21 ≤ length (str "```output:exec-12" ++ [LF] ++ str "hi" ++ [LF] ++ str "```").
Proof.
  apply (findOutputBlock_bounds
           (str "```output:exec-12" ++ [LF] ++ str "hi" ++ [LF] ++ str "```")
           (str "exec-12") (mkOutputBlock 0 18 21)).
  reflexivity.
Defined.

Section Fence.

Lemma starts_with_take pat s :
  starts_with pat s = starts_with pat (take (length pat) s).
Proof.
  revert s. induction pat as [|p pat IH]; intros [|c s]; simpl; try done.
  by rewrite IH.
Qed.

(** Whether a pattern occurs at [k] depends on the text up to the end of the
    occurrence only. *)
Lemma starts_with_agree pat t1 t2 n k :
  take n t1 = take n t2 → k + length pat ≤ n →
  starts_with pat (drop k t1) = starts_with pat (drop k t2).
Proof.
  intros Hagree Hk.
  rewrite (starts_with_take pat (drop k t1)), (starts_with_take pat (drop k t2)).
  f_equal.
  rewrite !take_drop_commute.
  replace (take (k + length pat) t1) with (take (k + length pat) (take n t1))
    by (rewrite take_take; f_equal; lia).
  replace (take (k + length pat) t2) with (take (k + length pat) (take n t2))
    by (rewrite take_take; f_equal; lia).
  by rewrite Hagree.
Qed.

Lemma starts_with_length pat s : starts_with pat s = true → length pat ≤ length s.
Proof.
  intros [post ->]%starts_with_spec. rewrite length_app. lia.
Qed.

(** [indexOf] finds the first occurrence at or after [from], and nothing
    else. *)
Lemma indexOf_unique text pat from m :
  from ≤ m → m ≤ length text →
  starts_with pat (drop m text) = true →
  (∀ k, from ≤ k → k < m → starts_with pat (drop k text) = false) →
  indexOf text pat from = Some m.
Proof.
  intros Hfrom Hm Hat Hmin.
  destruct (indexOf text pat from) as [m'|] eqn:Hidx.
  - f_equal. pose proof (indexOf_first _ _ _ _ m Hidx Hfrom Hm Hat) as Hle.
    apply indexOf_Some in Hidx as [Hrange Hat'].
    destruct (decide (m' < m)) as [Hlt|]; [|lia].
    rewrite Hmin in Hat' by lia. done.
  - by rewrite (indexOf_None _ _ _ m Hidx Hfrom Hm) in Hat.
Qed.

Lemma indexOf_min text pat from m k :
  indexOf text pat from = Some m → from ≤ k → k < m →
  starts_with pat (drop k text) = false.
Proof.
  intros Hidx Hfrom Hk.
  destruct (starts_with pat (drop k text)) eqn:Hat; [|done].
  pose proof (indexOf_Some _ _ _ _ Hidx) as [Hrange _].
  pose proof (indexOf_first _ _ _ _ k Hidx Hfrom ltac:(lia) Hat). lia.
Qed.

Lemma fence_backticks text p :
  starts_with FENCE (drop p text) = true →
  text !! p = Some BACKTICK ∧ text !! (p + 1) = Some BACKTICK
  ∧ text !! (p + 2) = Some BACKTICK.
Proof.
  intros [post Hpost]%starts_with_spec.
  rewrite <- (Nat.add_0_r p) at 1.
  rewrite <- !lookup_drop, Hpost. done.
Qed.

Lemma closing_loop_Some fuel text searchPos closingPos :
  closing_loop fuel text searchPos = Some closingPos →
  fence_at text closingPos ∧ searchPos ≤ closingPos
  ∧ ∀ p, searchPos ≤ p → p < closingPos → ¬ fence_at text p.
Proof.
  revert searchPos. induction fuel as [|fuel IH]; intros searchPos; simpl; [done|].
  destruct (searchPos <? length text) eqn:Hlt; [|done].
  apply Nat.ltb_lt in Hlt.
  destruct (indexOf text FENCE searchPos) as [nextBackticks|] eqn:Hnext; [|done].
  pose proof (indexOf_Some _ _ _ _ Hnext) as [Hrange Hat].
  destruct ((nextBackticks =? 0)
            || bool_decide (text !! (nextBackticks - 1) = Some LF)) eqn:Hline.
  - intros [= <-]. split_and!.
    + split; [done|]. apply orb_true_iff in Hline as [H0|Hlf].
      * left. by apply Nat.eqb_eq.
      * right. by apply bool_decide_eq_true in Hlf.
    + lia.
    + intros p Hp1 Hp2 [Hfence _].
      by rewrite (indexOf_min _ _ _ _ p Hnext) in Hfence.
  - intros (Hfence & Hle & Hnone)%IH. split_and!; [done|lia|].
    intros p Hp1 Hp2 [Hp Hstart].
    apply orb_false_iff in Hline as [H0 Hlf].
    apply Nat.eqb_neq in H0. apply bool_decide_eq_false in Hlf.
    destruct (decide (p < nextBackticks)) as [Hlt'|Hge].
    { by rewrite (indexOf_min _ _ _ _ p Hnext) in Hp. }
    destruct (decide (p = nextBackticks)) as [->|Hne].
    { destruct Hstart; done. }
    destruct (decide (nextBackticks + 3 ≤ p)) as [Hfar|Hnear].
    { apply (Hnone p); [lia|done|]. by split. }
    destruct (fence_backticks _ _ Hat) as (Hb0 & Hb1 & Hb2).
    destruct Hstart as [->|Hprev]; [lia|].
    assert (p - 1 = nextBackticks ∨ p - 1 = nextBackticks + 1) as [Heq|Heq] by lia;
      rewrite Heq in Hprev; rewrite ?Hb0, ?Hb1 in Hprev; by injection Hprev.
Qed.

Lemma closing_loop_None fuel text searchPos p :
  length text - searchPos ≤ fuel →
  closing_loop fuel text searchPos = None →
  searchPos ≤ p → ¬ fence_at text p.
Proof.
  revert searchPos. induction fuel as [|fuel IH]; intros searchPos Hfuel; simpl.
  - intros _ Hp [Hfence _]. apply starts_with_length in Hfence.
    rewrite length_drop in Hfence. simpl in Hfence. lia.
  - destruct (searchPos <? length text) eqn:Hlt.
    2:{ apply Nat.ltb_ge in Hlt. intros _ Hp [Hfence _].
        apply starts_with_length in Hfence.
        rewrite length_drop in Hfence. simpl in Hfence. lia. }
    apply Nat.ltb_lt in Hlt.
    destruct (indexOf text FENCE searchPos) as [nextBackticks|] eqn:Hnext.
    2:{ intros _ Hp [Hfence _].
        destruct (decide (p ≤ length text)) as [Hle|Hgt].
        - by rewrite (indexOf_None _ _ _ p Hnext) in Hfence.
        - apply starts_with_length in Hfence.
          rewrite length_drop in Hfence. simpl in Hfence. lia. }
    pose proof (indexOf_Some _ _ _ _ Hnext) as [Hrange Hat].
    destruct ((nextBackticks =? 0)
              || bool_decide (text !! (nextBackticks - 1) = Some LF)) eqn:Hline; [done|].
    intros Hnone Hp [Hfence Hstart].
    apply orb_false_iff in Hline as [H0 Hlf].
    apply Nat.eqb_neq in H0. apply bool_decide_eq_false in Hlf.
    destruct (decide (p < nextBackticks)) as [Hlt'|Hge].
    { by rewrite (indexOf_min _ _ _ _ p Hnext) in Hfence. }
    destruct (decide (p = nextBackticks)) as [->|Hne].
    { destruct Hstart; done. }
    destruct (decide (nextBackticks + 3 ≤ p)) as [Hfar|Hnear].
    { apply (IH (nextBackticks + 3)); [lia|done|done|]. by split. }
    destruct (fence_backticks _ _ Hat) as (Hb0 & Hb1 & Hb2).
    destruct Hstart as [->|Hprev]; [lia|].
    assert (p - 1 = nextBackticks ∨ p - 1 = nextBackticks + 1) as [Heq|Heq] by lia;
      rewrite Heq in Hprev; rewrite ?Hb0, ?Hb1 in Hprev; by injection Hprev.
Qed.

(** The closing position is the first closing fence at or after the place the
    search starts from. *)
Lemma closing_loop_unique text searchPos closingPos :
  searchPos ≤ closingPos → fence_at text closingPos →
  (∀ p, searchPos ≤ p → p < closingPos → ¬ fence_at text p) →
  closing_loop (length text) text searchPos = Some closingPos.
Proof.
  intros Hle Hfence Hnone.
  destruct (closing_loop (length text) text searchPos) as [c|] eqn:Hloop.
  - apply closing_loop_Some in Hloop as (Hc & Hle' & Hnone').
    f_equal. destruct (decide (c < closingPos)); [by destruct (Hnone c)|].
    destruct (decide (closingPos < c)); [by destruct (Hnone' closingPos)|]. lia.
  - exfalso. eapply closing_loop_None; [|done|done|done]. lia.
Qed.

End Fence.

Section Block.

Lemma not_starts_with_char c text k :
  starts_with [c] (drop k text) = false ↔ text !! k ≠ Some c.
Proof.
  rewrite <- not_true_iff_false, starts_with_char. split.
  - intros Hno Hk. apply Hno. exists (drop (S k) text). by apply drop_S.
  - intros Hk [s' Hs']. apply Hk.
    rewrite <- (Nat.add_0_r k), <- lookup_drop, Hs'. done.
Qed.

Lemma closing_loop_none_intro text searchPos :
  (∀ p, searchPos ≤ p → ¬ fence_at text p) →
  closing_loop (length text) text searchPos = None.
Proof.
  intros Hnone.
  destruct (closing_loop (length text) text searchPos) as [c|] eqn:Hloop; [|done].
  apply closing_loop_Some in Hloop as (Hc & Hle & _). by destruct (Hnone c).
Qed.

(** The block that [findOutputBlock] returns, by its marker, its first line
    and its closing fence. *)
Lemma findOutputBlock_shape (text execId : list N) (block : OutputBlock) :
  findOutputBlock text execId = Some block →
  starts_with (marker execId) (drop (markerStart block) text) = true
  ∧ (∀ k, k < markerStart block → starts_with (marker execId) (drop k text) = false)
  ∧ markerStart block < contentStart block
  ∧ text !! (contentStart block - 1) = Some LF
  ∧ (∀ k, markerStart block ≤ k → k < contentStart block - 1 → text !! k ≠ Some LF)
  ∧ ((fence_at text (contentEnd block)
      ∧ contentStart block ≤ contentEnd block
      ∧ ∀ p, contentStart block ≤ p → p < contentEnd block → ¬ fence_at text p)
     ∨ (contentEnd block = length text
        ∧ ∀ p, contentStart block ≤ p → ¬ fence_at text p)).
Proof.
  unfold findOutputBlock.
  destruct (indexOf text (marker execId) 0) as [ms|] eqn:Hms; [|done].
  destruct (indexOf text [LF] ms) as [nl|] eqn:Hnl; [|done].
  intros [= <-]. cbn [markerStart contentStart contentEnd].
  pose proof (indexOf_Some _ _ _ _ Hms) as [Hmsr Hmarker].
  pose proof (indexOf_Some _ _ _ _ Hnl) as [Hnlr Hlf].
  replace (nl + 1 - 1) with nl by lia.
  split_and!.
  - done.
  - intros k Hk. eapply indexOf_min; [done|lia|done].
  - lia.
  - destruct (proj1 (starts_with_char _ _) Hlf) as [s' Hs'].
    rewrite <- (Nat.add_0_r nl), <- lookup_drop, Hs'. done.
  - intros k Hk1 Hk2. apply not_starts_with_char. by eapply indexOf_min.
  - destruct (closing_loop (length text) text (nl + 1)) as [c|] eqn:Hloop;
      cbn [default].
    + left. by apply closing_loop_Some in Hloop.
    + right. split; [done|]. intros p Hp.
      eapply closing_loop_None; [|done|done]. lia.
Qed.

End Block.

(** What [findOutputBlock] returns: [markerStart] is the first place where
    the marker string occurs, [contentStart] follows the first newline at or
    after it, and [contentEnd] is the first closing fence (three backticks at
    the start of a line) at or after [contentStart], or the end of the text
    when there is none. *)
Theorem findOutputBlock_spec (text execId : list N) (block : OutputBlock) :
  findOutputBlock text execId = Some block →
  starts_with (marker execId) (drop (markerStart block) text) = true
  ∧ (∀ k, k < markerStart block → starts_with (marker execId) (drop k text) = false)
  ∧ markerStart block < contentStart block
  ∧ text !! (contentStart block - 1) = Some LF
  ∧ (∀ k, markerStart block ≤ k → k < contentStart block - 1 → text !! k ≠ Some LF)
  ∧ ((fence_at text (contentEnd block)
      ∧ contentStart block ≤ contentEnd block
      ∧ ∀ p, contentStart block ≤ p → p < contentEnd block → ¬ fence_at text p)
     ∨ (contentEnd block = length text
        ∧ ∀ p, contentStart block ≤ p → ¬ fence_at text p)).
Proof. apply findOutputBlock_shape. Qed.

Lemma findOutputBlock_spec_witness :
  starts_with (marker (str "e1"))
    (drop 2 (str "x" ++ [LF] ++ str "```output:e1" ++ [LF] ++ str "a```"
               ++ [LF] ++ str "```")) = true
  ∧ (∀ k, k < 2 →
       starts_with (marker (str "e1"))
         (drop k (str "x" ++ [LF] ++ str "```output:e1" ++ [LF] ++ str "a```"
                    ++ [LF] ++ str "```")) = false)
  ∧ 2 < 15
  ∧ (str "x" ++ [LF] ++ str "```output:e1" ++ [LF] ++ str "a```"
       ++ [LF] ++ str "```") !! (15 - 1) = Some LF
  ∧ (∀ k, 2 ≤ k → k < 15 - 1 →
       (str "x" ++ [LF] ++ str "```output:e1" ++ [LF] ++ str "a```"
          ++ [LF] ++ str "```") !! k ≠ Some LF)
  ∧ ((fence_at (str "x" ++ [LF] ++ str "```output:e1" ++ [LF] ++ str "a```"
                  ++ [LF] ++ str "```") 20
      ∧ 15 ≤ 20
      ∧ ∀ p, 15 ≤ p → p < 20 →
          ¬ fence_at (str "x" ++ [LF] ++ str "```output:e1" ++ [LF] ++ str "a```"
                        ++ [LF] ++ str "```") p)
     ∨ (20 = length (str "x" ++ [LF] ++ str "```output:e1" ++ [LF] ++ str "a```"
                       ++ [LF] ++ str "```")
        ∧ ∀ p, 15 ≤ p →
            ¬ fence_at (str "x" ++ [LF] ++ str "```output:e1" ++ [LF] ++ str "a```"
                          ++ [LF] ++ str "```") p)).
Proof.
  apply (findOutputBlock_spec
           (str "x" ++ [LF] ++ str "```output:e1" ++ [LF] ++ str "a```"
              ++ [LF] ++ str "```")
           (str "e1") (mkOutputBlock 2 15 20)).
  reflexivity.
Defined.

Section RoundTrip.

(** The marker and the newline after it determine where the block starts;
    the closing fence is searched from there. *)
Lemma findOutputBlock_start text execId ms nl :
  ms ≤ nl → nl < length text →
  starts_with (marker execId) (drop ms text) = true →
  (∀ k, k < ms → starts_with (marker execId) (drop k text) = false) →
  text !! nl = Some LF →
  (∀ k, ms ≤ k → k < nl → text !! k ≠ Some LF) →
  findOutputBlock text execId
  = Some (mkOutputBlock ms (nl + 1)
            (default (length text) (closing_loop (length text) text (nl + 1)))).
Proof.
  intros Hle Hnl Hmarker Hfirst Hlf Hnolf. unfold findOutputBlock.
  rewrite (indexOf_unique text (marker execId) 0 ms); [|lia|lia|done|].
  2:{ intros k _ Hk. by apply Hfirst. }
  rewrite (indexOf_unique text [LF] ms nl); [done|lia|lia| |].
  - apply starts_with_char. exists (drop (S nl) text). by apply drop_S.
  - intros k Hk1 Hk2. apply not_starts_with_char. by apply Hnolf.
Qed.

Lemma marker_no_newline execId : LF ∉ execId → LF ∉ marker execId.
Proof.
  intros Hid. unfold marker. rewrite elem_of_app. intros [H|H]; [|done].
  vm_compute in H.
  repeat (apply elem_of_cons in H as [H|H]; [discriminate|]).
  by apply elem_of_nil in H.
Qed.

(** The marker line ends before the content starts. *)
Lemma marker_before_content text execId block :
  LF ∉ execId → findOutputBlock text execId = Some block →
  markerStart block + length (marker execId) < contentStart block.
Proof.
  intros Hid Hblock.
  pose proof (marker_no_newline _ Hid) as Hmarker.
  apply findOutputBlock_shape in Hblock as (Hat & _ & Hlt & Hlf & _).
  apply starts_with_spec in Hat as [post Hpost].
  destruct (decide (markerStart block + length (marker execId) < contentStart block))
    as [|Hge]; [done|]. exfalso. apply Hmarker.
  apply list_elem_of_lookup. exists (contentStart block - 1 - markerStart block).
  assert (Hl : drop (markerStart block) text !! (contentStart block - 1 - markerStart block)
               = Some LF).
  { rewrite lookup_drop. rewrite <- Hlf. f_equal. lia. }
  rewrite Hpost, lookup_app_l in Hl by lia. done.
Qed.

(** The text that [replaceOutput] leaves behind. *)
Lemma replaceOutput_content execId new_content y block :
  findOutputBlock (content y) execId = Some block →
  content (snd (replaceOutput execId new_content y))
  = take (contentStart block) (content y) ++ new_content
      ++ drop (contentEnd block) (content y).
Proof.
  intros Hblock. unfold replaceOutput. rewrite Hblock.
  apply findOutputBlock_range in Hblock as (_ & Hse & Hlen).
  destruct y as [text log]. cbn [snd content] in *.
  set (cs := contentStart block) in *. set (ce := contentEnd block) in *.
  destruct (Nat.ltb_spec 0 (ce - cs)) as [Hlt|Hge].
  - unfold ytext_delete. destruct (ce - cs) as [|n] eqn:Hn; [lia|].
    replace (cs + S n) with ce by lia. cbn [content].
    unfold ytext_insert. cbn [content].
    destruct new_content as [|c new_content]; cbn [content]; [done|].
    rewrite take_app_length' by (rewrite length_take; lia).
    by rewrite drop_app_length' by (rewrite length_take; lia).
  - assert (ce = cs) as -> by lia.
    unfold ytext_insert.
    destruct new_content as [|c new_content]; cbn [content]; [|done].
    simpl. by rewrite take_drop.
Qed.

Lemma lookup_agree (t1 t2 : list N) n k :
  take n t1 = take n t2 → k < n → t1 !! k = t2 !! k.
Proof.
  intros Hagree Hk.
  by rewrite <- (lookup_take_lt t1 n k), <- (lookup_take_lt t2 n k), Hagree by done.
Qed.

(** A text that agrees with [text] up to [contentStart] has the block start
    at the same place. *)
Lemma findOutputBlock_prefix text new execId block :
  LF ∉ execId → findOutputBlock text execId = Some block →
  take (contentStart block) new = take (contentStart block) text →
  findOutputBlock new execId
  = Some (mkOutputBlock (markerStart block) (contentStart block)
            (default (length new)
               (closing_loop (length new) new (contentStart block)))).
Proof.
  intros Hid Hblock Hagree.
  pose proof (marker_before_content _ _ _ Hid Hblock) as Hmb.
  pose proof (findOutputBlock_range _ _ _ Hblock) as (_ & Hse & Hlen).
  apply findOutputBlock_shape in Hblock as (Hat & Hfirst & Hlt & Hlf & Hnolf & _).
  set (ms := markerStart block) in *. set (cs := contentStart block) in *.
  assert (Hnewlen : cs ≤ length new).
  { apply (f_equal length) in Hagree. rewrite !length_take in Hagree. lia. }
  pose proof (findOutputBlock_start new execId ms (cs - 1)) as Hstart.
  replace (cs - 1 + 1) with cs in Hstart by lia.
  apply Hstart.
  - lia.
  - lia.
  - rewrite (starts_with_agree _ new text cs); [done|done|lia].
  - intros k Hk. rewrite (starts_with_agree _ new text cs); [by apply Hfirst|done|lia].
  - rewrite <- Hlf. apply (lookup_agree new text cs); [done|lia].
  - intros k Hk1 Hk2.
    rewrite (lookup_agree new text cs) by (done || lia). by apply Hnolf.
Qed.

Section Replaced.

Variables (text new_content : list N) (execId : list N) (block : OutputBlock).
Hypothesis Hid : LF ∉ execId.
Hypothesis Hticks : BACKTICK ∉ new_content.
Hypothesis Hblock : findOutputBlock text execId = Some block.

Let cs := contentStart block.
Let ce := contentEnd block.
Let new := take cs text ++ new_content ++ drop ce text.

Lemma replaced_agree : take cs new = take cs text.
Proof.
  pose proof (findOutputBlock_range _ _ _ Hblock) as (_ & Hse & Hlen).
  unfold new. by rewrite take_app_length' by (rewrite length_take; lia).
Qed.

Lemma replaced_length :
  length new = cs + length new_content + (length text - ce).
Proof.
  pose proof (findOutputBlock_range _ _ _ Hblock) as (_ & Hse & Hlen).
  unfold new. rewrite !length_app, length_take, length_drop. lia.
Qed.

Lemma replaced_lookup p :
  cs ≤ p → p < cs + length new_content → new !! p = new_content !! (p - cs).
Proof.
  pose proof (findOutputBlock_range _ _ _ Hblock) as (_ & Hse & Hlen).
  intros Hp1 Hp2. unfold new.
  rewrite lookup_app_r by (rewrite length_take; lia).
  rewrite length_take. replace (p - cs `min` length text) with (p - cs) by lia.
  by rewrite lookup_app_l by lia.
Qed.

Lemma replaced_drop : drop (cs + length new_content) new = drop ce text.
Proof.
  pose proof (findOutputBlock_range _ _ _ Hblock) as (_ & Hse & Hlen).
  unfold new. rewrite app_assoc, drop_app_length'; [done|].
  rewrite length_app, length_take. lia.
Qed.

Lemma replaced_no_fence p :
  cs ≤ p → p < cs + length new_content → ¬ fence_at new p.
Proof.
  intros Hp1 Hp2 [Hfence _]. apply fence_backticks in Hfence as (Hb & _).
  rewrite replaced_lookup in Hb by done. apply Hticks. by eapply list_elem_of_lookup_2.
Qed.

(** The block after the content has been replaced by a text without
    backticks that is empty or ends in a newline: same marker, same start,
    and the new content up to the closing fence. *)
Lemma findOutputBlock_replaced :
  new_content = [] ∨ last new_content = Some LF →
  findOutputBlock new execId
  = Some (mkOutputBlock (markerStart block) cs (cs + length new_content)).
Proof.
  intros Hend.
  rewrite (findOutputBlock_prefix text new execId block Hid Hblock replaced_agree).
  fold cs. do 2 f_equal.
  pose proof (findOutputBlock_range _ _ _ Hblock) as (_ & Hse & Hlen).
  pose proof (findOutputBlock_shape _ _ _ Hblock) as (_ & _ & Hlt & Hlf & _ & Hclose).
  fold cs ce in Hse, Hlen, Hlt, Hlf, Hclose.
  destruct Hclose as [((Hfence & _) & Hce & _)|[Hce _]].
  - rewrite (closing_loop_unique new cs (cs + length new_content)); [done|lia| |].
    + split; [by rewrite replaced_drop|].
      right. destruct Hend as [Hnil|Hlast].
      * rewrite Hnil. simpl. rewrite Nat.add_0_r. rewrite <- Hlf.
        apply (lookup_agree new text cs); [apply replaced_agree|lia].
      * apply last_Some in Hlast as [init Hinit].
        rewrite replaced_lookup by (rewrite Hinit, length_app; simpl; lia).
        rewrite Hinit, length_app. simpl.
        replace (cs + (length init + 1) - 1 - cs) with (length init) by lia.
        by rewrite list_lookup_middle.
    + intros p Hp1 Hp2. by apply replaced_no_fence.
  - rewrite closing_loop_none_intro; [simpl; rewrite replaced_length; lia|].
    intros p Hp. destruct (decide (p < cs + length new_content));
      [by apply replaced_no_fence|].
    intros [Hfence _]. apply starts_with_length in Hfence.
    rewrite length_drop, replaced_length in Hfence. simpl in Hfence. lia.
Qed.


(** Past the new content the text is the old one, moved: closing fences
    there are the closing fences of the old text. *)
Lemma replaced_fence_shift q :
  ce < q → fence_at new (cs + length new_content + (q - ce)) ↔ fence_at text q.
Proof.
  intros Hq.
  pose proof (findOutputBlock_range _ _ _ Hblock) as (_ & Hse & Hlen).
  fold cs ce in Hse, Hlen.
  assert (Hdrop : ∀ k, drop (cs + length new_content + k) new = drop (ce + k) text).
  { intros k. by rewrite <- (drop_drop new k (cs + length new_content)),
      <- (drop_drop text k ce), replaced_drop. }
  assert (Hprev : new !! (cs + length new_content + (q - ce) - 1) = text !! (q - 1)).
  { replace (cs + length new_content + (q - ce) - 1)
      with (cs + length new_content + (q - ce - 1) + 0) by lia.
    rewrite <- lookup_drop, Hdrop, lookup_drop. f_equal. lia. }
  unfold fence_at. rewrite Hdrop, Hprev.
  replace (ce + (q - ce)) with q by lia.
  split; (intros [Hfence [?|Hlf]]; [lia|by split; [|right]]).
Qed.

(** The block after the content has been replaced by a text without
    backticks that does not end in a newline: it runs to the closing fence
    that followed its own in the old text, or to the end. *)
Lemma findOutputBlock_replaced_next nxt :
  new_content ≠ [] → last new_content ≠ Some LF →
  ce < nxt →
  fence_at text nxt ∨ nxt = length text →
  (∀ p, ce < p → p < nxt → ¬ fence_at text p) →
  findOutputBlock new execId
  = Some (mkOutputBlock (markerStart block) cs (cs + length new_content + (nxt - ce))).
Proof.
  intros Hne Hlast Hnxt Hat Hnone.
  rewrite (findOutputBlock_prefix text new execId block Hid Hblock replaced_agree).
  fold cs. do 2 f_equal.
  pose proof (findOutputBlock_range _ _ _ Hblock) as (_ & Hse & Hlen).
  fold cs ce in Hse, Hlen.
  pose proof replaced_length as Hnewlen.
  assert (0 < length new_content) as Hpos by (destruct new_content; simpl; [done|lia]).
  assert (Hbefore : ∀ p, cs ≤ p → p < cs + length new_content + (nxt - ce) →
                         ¬ fence_at new p).
  { intros p Hp1 Hp2.
    destruct (decide (p < cs + length new_content)) as [|Hge];
      [by apply replaced_no_fence|].
    destruct (decide (p = cs + length new_content)) as [->|Hgt].
    - intros [_ [?|Hprev]]; [lia|]. apply Hlast. rewrite <- Hprev.
      rewrite replaced_lookup by lia.
      replace (cs + length new_content - 1 - cs) with (length new_content - 1) by lia.
      rewrite last_lookup. f_equal. lia.
    - replace p with (cs + length new_content + ((p - (cs + length new_content) + ce) - ce))
        by lia.
      rewrite replaced_fence_shift by lia. apply Hnone; lia. }
  destruct Hat as [Hfence| ->].
  - assert (nxt + 3 ≤ length text).
    { destruct Hfence as [Hfence _]. apply starts_with_length in Hfence.
      rewrite length_drop in Hfence. simpl in Hfence. lia. }
    rewrite (closing_loop_unique new cs (cs + length new_content + (nxt - ce)));
      [done|lia| |done].
    by apply replaced_fence_shift.
  - rewrite closing_loop_none_intro; [simpl; lia|].
    intros p Hp. destruct (decide (p < cs + length new_content + (length text - ce)));
      [by apply Hbefore|].
    intros [Hfence _]. apply starts_with_length in Hfence.
    rewrite length_drop in Hfence. simpl in Hfence. lia.
Qed.

End Replaced.

End RoundTrip.

(** Round trip: on a block whose id holds no newline, after
    [replaceOutput(execId, content)] with a content that has no backtick and
    is empty or ends in a newline, [getOutputContent(execId)] returns that
    content. *)
Theorem replaceOutput_getOutputContent (execId new_content : list N) (y : YText) :
  LF ∉ execId → BACKTICK ∉ new_content →
  new_content = [] ∨ last new_content = Some LF →
  is_Some (findOutputBlock (content y) execId) →
  getOutputContent execId (snd (replaceOutput execId new_content y))
  = Some new_content.
Proof.
  intros Hid Hticks Hend [block Hblock].
  unfold getOutputContent.
  rewrite (replaceOutput_content _ _ _ _ Hblock).
  pose proof (findOutputBlock_replaced _ _ _ _ Hid Hticks Hblock Hend) as Hfound.
  cbv zeta in Hfound. rewrite Hfound. simpl. f_equal. unfold slice.
  pose proof (findOutputBlock_range _ _ _ Hblock) as (_ & Hse & Hlen).
  rewrite drop_app_length' by (rewrite length_take; lia).
  replace (contentStart block + length new_content - contentStart block)
    with (length new_content) by lia.
  by rewrite take_app_length.
Qed.

Lemma replaceOutput_getOutputContent_witness :
  getOutputContent (str "e1")
    (snd (replaceOutput (str "e1") (str "50%" ++ [LF])
            (mkYText (str "```output:e1" ++ [LF] ++ str "10%" ++ [LF] ++ str "```") [])))
  = Some (str "50%" ++ [LF]).
Proof.
  apply (replaceOutput_getOutputContent (str "e1") (str "50%" ++ [LF])
           (mkYText (str "```output:e1" ++ [LF] ++ str "10%" ++ [LF] ++ str "```") [])).
  - vm_compute. intros H.
    repeat (apply elem_of_cons in H as [H|H]; [discriminate|]). by apply elem_of_nil in H.
  - vm_compute. intros H.
    repeat (apply elem_of_cons in H as [H|H]; [discriminate|]). by apply elem_of_nil in H.
  - right. reflexivity.
  - by eexists.
Defined.

(** [replaceOutput] is idempotent on such contents: replacing the content by
    the same text a second time leaves the document text as it is. *)
Theorem replaceOutput_idempotent (execId new_content : list N) (y : YText) :
  LF ∉ execId → BACKTICK ∉ new_content →
  new_content = [] ∨ last new_content = Some LF →
  is_Some (findOutputBlock (content y) execId) →
  content (snd (replaceOutput execId new_content
                  (snd (replaceOutput execId new_content y))))
  = content (snd (replaceOutput execId new_content y)).
Proof.
  intros Hid Hticks Hend [block Hblock].
  pose proof (findOutputBlock_replaced _ _ _ _ Hid Hticks Hblock Hend) as Hfound.
  cbv zeta in Hfound.
  rewrite <- (replaceOutput_content _ new_content _ _ Hblock) in Hfound.
  rewrite (replaceOutput_content _ _ _ _ Hfound). simpl.
  rewrite (replaceOutput_content _ _ _ _ Hblock).
  pose proof (findOutputBlock_range _ _ _ Hblock) as (_ & Hse & Hlen).
  rewrite take_app_length' by (rewrite length_take; lia).
  do 2 f_equal.
  rewrite app_assoc, drop_app_length'; [done|].
  rewrite length_app, length_take. lia.
Qed.

Lemma replaceOutput_idempotent_witness :
  content (snd (replaceOutput (str "e1") (str "50%" ++ [LF])
                  (snd (replaceOutput (str "e1") (str "50%" ++ [LF])
                          (mkYText (str "```output:e1" ++ [LF] ++ str "```") [])))))
  = content (snd (replaceOutput (str "e1") (str "50%" ++ [LF])
                    (mkYText (str "```output:e1" ++ [LF] ++ str "```") []))).
Proof.
  apply (replaceOutput_idempotent (str "e1") (str "50%" ++ [LF])
           (mkYText (str "```output:e1" ++ [LF] ++ str "```") [])).
  - vm_compute. intros H.
    repeat (apply elem_of_cons in H as [H|H]; [discriminate|]). by apply elem_of_nil in H.
  - vm_compute. intros H.
    repeat (apply elem_of_cons in H as [H|H]; [discriminate|]). by apply elem_of_nil in H.
  - right. reflexivity.
  - by eexists.
Defined.



Section Appended.

Variables (text new_content : list N) (execId : list N) (block : OutputBlock).
Hypothesis Hid : LF ∉ execId.
Hypothesis Hticks : BACKTICK ∉ new_content.
Hypothesis Hblock : findOutputBlock text execId = Some block.

Let cs := contentStart block.
Let ce := contentEnd block.
Let new := take ce text ++ new_content ++ drop ce text.

Lemma appended_agree : take ce new = take ce text.
Proof.
  pose proof (findOutputBlock_range _ _ _ Hblock) as (_ & Hse & Hlen).
  unfold new. by rewrite take_app_length' by (rewrite length_take; lia).
Qed.

Lemma appended_agree_start : take cs new = take cs text.
Proof.
  pose proof (findOutputBlock_range _ _ _ Hblock) as (_ & Hse & Hlen).
  fold cs ce in Hse.
  replace cs with (cs `min` ce) by lia.
  by rewrite <- !take_take, appended_agree.
Qed.

Lemma appended_length : length new = length text + length new_content.
Proof.
  pose proof (findOutputBlock_range _ _ _ Hblock) as (_ & Hse & Hlen).
  unfold new. rewrite !length_app, length_take, length_drop. lia.
Qed.

Lemma appended_lookup p :
  ce ≤ p → p < ce + length new_content → new !! p = new_content !! (p - ce).
Proof.
  pose proof (findOutputBlock_range _ _ _ Hblock) as (_ & Hse & Hlen).
  intros Hp1 Hp2. unfold new.
  rewrite lookup_app_r by (rewrite length_take; lia).
  rewrite length_take. replace (p - ce `min` length text) with (p - ce) by lia.
  by rewrite lookup_app_l by lia.
Qed.

Lemma appended_drop : drop (ce + length new_content) new = drop ce text.
Proof.
  pose proof (findOutputBlock_range _ _ _ Hblock) as (_ & Hse & Hlen).
  unfold new. rewrite app_assoc, drop_app_length'; [done|].
  rewrite length_app, length_take. lia.
Qed.

Lemma appended_no_fence p :
  new_content ≠ [] → cs ≤ p → p < ce + length new_content → ¬ fence_at new p.
Proof.
  intros Hne Hp1 Hp2 [Hfence Hstart].
  pose proof (findOutputBlock_range _ _ _ Hblock) as (_ & Hse & Hlen).
  pose proof (findOutputBlock_shape _ _ _ Hblock) as (_ & _ & Hlt & _ & _ & Hclose).
  fold cs ce in Hse, Hlen, Hlt, Hclose.
  assert (Hold : ∀ q, cs ≤ q → q < ce → ¬ fence_at text q).
  { destruct Hclose as [(_ & _ & Hnone)|[_ Hnone]]; [done|]. intros q Hq _. by apply Hnone. }
  pose proof (fence_backticks _ _ Hfence) as (Hb0 & Hb1 & Hb2).
  assert (Hback : ∀ q, ce ≤ q → q < ce + length new_content → new !! q ≠ Some BACKTICK).
  { intros q Hq1 Hq2 Hq. rewrite appended_lookup in Hq by done.
    apply Hticks. by eapply list_elem_of_lookup_2. }
  assert (0 < length new_content) by (destruct new_content; simpl; [done|lia]).
  destruct (decide (p + 3 ≤ ce)) as [Hfar|Hnear].
  - apply (Hold p); [done|lia|]. split.
    + by rewrite <- (starts_with_agree FENCE new text ce) by (apply appended_agree || simpl; lia).
    + destruct Hstart as [->|Hprev]; [by left|right].
      rewrite <- Hprev. symmetry. apply (lookup_agree new text ce); [apply appended_agree|lia].
  - destruct (decide (ce ≤ p)) as [Hin|Hout]; [by apply (Hback p)|].
    destruct (decide (p + 1 = ce)) as [Heq|Hne1].
    + apply (Hback (p + 1)); [lia|lia|done].
    + apply (Hback (p + 2)); [lia|lia|done].
Qed.

(** The block after a text without backticks that is empty or ends in a
    newline has been inserted at the end of its content. *)
Lemma findOutputBlock_appended :
  new_content = [] ∨ last new_content = Some LF →
  findOutputBlock new execId
  = Some (mkOutputBlock (markerStart block) cs (ce + length new_content)).
Proof.
  intros Hend.
  pose proof (findOutputBlock_range _ _ _ Hblock) as (_ & Hse & Hlen).
  pose proof (findOutputBlock_shape _ _ _ Hblock) as (_ & _ & Hlt & Hlf & _ & Hclose).
  fold cs ce in Hse, Hlen, Hlt, Hlf, Hclose.
  destruct (decide (new_content = [])) as [Hnil|Hne].
  { unfold new. rewrite Hnil. simpl. rewrite take_drop, Nat.add_0_r.
    rewrite Hblock. by destruct block. }
  destruct Hend as [?|Hlast]; [done|].
  rewrite (findOutputBlock_prefix text new execId block Hid Hblock appended_agree_start).
  fold cs. do 2 f_equal.
  destruct Hclose as [((Hfence & _) & Hce & _)|[Hce _]].
  - rewrite (closing_loop_unique new cs (ce + length new_content)); [done|lia| |].
    + split; [by rewrite appended_drop|].
      right. apply last_Some in Hlast as [init Hinit].
      rewrite appended_lookup by (rewrite Hinit, length_app; simpl; lia).
      rewrite Hinit, length_app. simpl.
      replace (ce + (length init + 1) - 1 - ce) with (length init) by lia.
      by rewrite list_lookup_middle.
    + intros p Hp1 Hp2. by apply appended_no_fence.
  - rewrite closing_loop_none_intro; [simpl; rewrite appended_length; lia|].
    intros p Hp. destruct (decide (p < ce + length new_content));
      [by apply appended_no_fence|].
    intros [Hfence _]. apply starts_with_length in Hfence.
    rewrite length_drop, appended_length in Hfence. simpl in Hfence. lia.
Qed.

End Appended.

(** The text that [appendOutput] leaves behind. *)
Lemma appendOutput_content execId new_content y block :
  findOutputBlock (content y) execId = Some block →
  content (snd (appendOutput execId new_content y))
  = take (contentEnd block) (content y) ++ new_content
      ++ drop (contentEnd block) (content y).
Proof.
  intros Hblock. unfold appendOutput. rewrite Hblock. cbn [snd].
  unfold ytext_insert. destruct new_content; cbn [content]; [|done].
  simpl. by rewrite take_drop.
Qed.

(** The content of the block after [appendOutput]. *)
Lemma appendOutput_extends (execId new_content old : list N) (y : YText) :
  LF ∉ execId → BACKTICK ∉ new_content →
  new_content = [] ∨ last new_content = Some LF →
  getOutputContent execId y = Some old →
  getOutputContent execId (snd (appendOutput execId new_content y))
  = Some (old ++ new_content).
Proof.
  intros Hid Hticks Hend Hold. unfold getOutputContent in *.
  destruct (findOutputBlock (content y) execId) as [block|] eqn:Hblock; [|done].
  simpl in Hold. injection Hold as <-.
  rewrite (appendOutput_content _ _ _ _ Hblock).
  pose proof (findOutputBlock_appended _ _ _ _ Hid Hticks Hblock Hend) as Hfound.
  cbv zeta in Hfound. rewrite Hfound. simpl. f_equal. unfold slice.
  pose proof (findOutputBlock_range _ _ _ Hblock) as (_ & Hse & Hlen).
  rewrite drop_app_le by (rewrite length_take; lia).
  rewrite take_app_ge by (rewrite length_drop, length_take; lia).
  rewrite length_drop, length_take.
  replace (contentEnd block + length new_content - contentStart block
           - (contentEnd block `min` length (content y) - contentStart block))
    with (length new_content) by lia.
  rewrite take_app_length. f_equal.
  rewrite take_drop_commute. f_equal. f_equal. lia.
Qed.

(** [appendOutput] extends the content: on a block whose id holds no
    newline, after [appendOutput(execId, content)] with a content that has
    no backtick and is empty or ends in a newline, [getOutputContent(execId)]
    returns the former content followed by the new one. *)
Theorem appendOutput_getOutputContent (execId new_content old : list N) (y : YText) :
  LF ∉ execId → BACKTICK ∉ new_content →
  new_content = [] ∨ last new_content = Some LF →
  getOutputContent execId y = Some old →
  getOutputContent execId (snd (appendOutput execId new_content y))
  = Some (old ++ new_content).
Proof. apply appendOutput_extends. Qed.

Lemma appendOutput_getOutputContent_witness :
  getOutputContent (str "e1")
    (snd (appendOutput (str "e1") (str "two" ++ [LF])
            (mkYText (str "```output:e1" ++ [LF] ++ str "one" ++ [LF] ++ str "```") [])))
  = Some ((str "one" ++ [LF]) ++ str "two" ++ [LF]).
Proof.
  apply (appendOutput_getOutputContent (str "e1") (str "two" ++ [LF]) (str "one" ++ [LF])
           (mkYText (str "```output:e1" ++ [LF] ++ str "one" ++ [LF] ++ str "```") [])).
  - vm_compute. intros H.
    repeat (apply elem_of_cons in H as [H|H]; [discriminate|]). by apply elem_of_nil in H.
  - vm_compute. intros H.
    repeat (apply elem_of_cons in H as [H|H]; [discriminate|]). by apply elem_of_nil in H.
  - right. reflexivity.
  - reflexivity.
Defined.

(** The text after two [replaceOutput] calls, the first with a content that
    does not end in a newline. *)
Lemma replaceOutput_twice_content execId first second y block nxt :
  LF ∉ execId → BACKTICK ∉ first → first ≠ [] → last first ≠ Some LF →
  findOutputBlock (content y) execId = Some block →
  contentEnd block < nxt →
  fence_at (content y) nxt ∨ nxt = length (content y) →
  (∀ p, contentEnd block < p → p < nxt → ¬ fence_at (content y) p) →
  content (snd (replaceOutput execId second (snd (replaceOutput execId first y))))
  = take (contentStart block) (content y) ++ second ++ drop nxt (content y).
Proof.
  intros Hid Hticks Hne Hlast Hblock Hnxt Hat Hnone.
  pose proof (findOutputBlock_range _ _ _ Hblock) as (_ & Hse & Hlen).
  pose proof (replaceOutput_content execId first y block Hblock) as Hfirst.
  pose proof (findOutputBlock_replaced_next _ _ _ _ Hid Hticks Hblock nxt
                Hne Hlast Hnxt Hat Hnone) as Hfound.
  cbv zeta in Hfound. rewrite <- Hfirst in Hfound.
  rewrite (replaceOutput_content execId second _ _ Hfound).
  cbn [contentStart contentEnd]. rewrite Hfirst.
  rewrite take_app_length' by (rewrite length_take; lia).
  f_equal. f_equal.
  rewrite (app_assoc (take _ _) first).
  rewrite drop_app_add' by (rewrite length_app, length_take; lia).
  rewrite drop_drop. f_equal. lia.
Qed.

(** Writing twice to a block, the first time a content that does not end in
    a newline, deletes text after the block: the fence that closed the block
    is glued to the first content, so the second [replaceOutput] takes the
    content to run to the next closing fence of the text (or to the end of
    the text), and replaces all of it.  The closing fence of the block and
    what followed it up to there are gone. *)
Theorem replaceOutput_second_write_deletes (execId first second : list N)
    (y : YText) (block : OutputBlock) (nxt : nat) :
  LF ∉ execId → BACKTICK ∉ first → first ≠ [] → last first ≠ Some LF →
  findOutputBlock (content y) execId = Some block →
  contentEnd block < nxt →
  fence_at (content y) nxt ∨ nxt = length (content y) →
  (∀ p, contentEnd block < p → p < nxt → ¬ fence_at (content y) p) →
  content (snd (replaceOutput execId second (snd (replaceOutput execId first y))))
  = take (contentStart block) (content y) ++ second ++ drop nxt (content y).
Proof. apply replaceOutput_twice_content. Qed.

Lemma replaceOutput_second_write_deletes_witness :
  content
    (snd (replaceOutput (str "e1") (str "100%")
            (snd (replaceOutput (str "e1") (str "50%")
                    (mkYText (str "```output:e1" ++ [LF] ++ str "```" ++ [LF]
                                ++ str "after") [])))))
  = take 13 (str "```output:e1" ++ [LF] ++ str "```" ++ [LF] ++ str "after")
      ++ str "100%"
      ++ drop 22 (str "```output:e1" ++ [LF] ++ str "```" ++ [LF] ++ str "after").
Proof.
  apply (replaceOutput_second_write_deletes (str "e1") (str "50%") (str "100%")
           (mkYText (str "```output:e1" ++ [LF] ++ str "```" ++ [LF] ++ str "after") [])
           (mkOutputBlock 0 13 13) 22).
  - vm_compute. intros H.
    repeat (apply elem_of_cons in H as [H|H]; [discriminate|]). by apply elem_of_nil in H.
  - vm_compute. intros H.
    repeat (apply elem_of_cons in H as [H|H]; [discriminate|]). by apply elem_of_nil in H.
  - discriminate.
  - discriminate.
  - reflexivity.
  - simpl. lia.
  - right. reflexivity.
  - intros p Hp1 Hp2 [Hfence _]. cbn [contentEnd] in Hp1.
    do 22 (destruct p as [|p]; [first [lia | by vm_compute in Hfence]|]). lia.
Defined.

(** ** The coordination protocol *)

Import Coordination.

Section Claim.

Lemma is_string_spec v s : is_string v s = true ↔ v = JStr s.
Proof.
  destruct v; simpl; try (split; [done | intros [=]]).
  rewrite bool_decide_eq_true. split; [by intros -> | by intros [= ->]].
Qed.

Lemma is_null_spec v : is_null v = true ↔ v = JNull.
Proof. destruct v; simpl; split; done. Qed.

(** C1: [claimExecution] returns false and writes nothing when the record is
    absent, when its status is not 'requested', or when its claimedBy is
    not null; otherwise it returns true and replaces the record by one that
    is the same except for status 'claimed', claimedBy the caller's client id
    and claimedAt the current time. *)
Theorem claimExecution_spec (now : Z) (execId : list N) (p : CoordinationProtocol) :
  (executions p !! execId = None → claimExecution now execId p = (false, p))
  ∧ (∀ exec, executions p !! execId = Some exec →
       field exec "status" ≠ JStr (str "requested") →
       claimExecution now execId p = (false, p))
  ∧ (∀ exec, executions p !! execId = Some exec →
       field exec "claimedBy" ≠ JNull →
       claimExecution now execId p = (false, p))
  ∧ (∀ exec, executions p !! execId = Some exec →
       field exec "status" = JStr (str "requested") →
       field exec "claimedBy" = JNull →
       claimExecution now execId p =
       (true,
        mkCoordinationProtocol (clientId p)
          (<[execId :=
               <["claimedAt" := JNum now]>
                 (<["claimedBy" := JNum (clientId p)]>
                    (<["status" := JStr (str "claimed")]> exec))]>
             (executions p)))).
Proof.
  unfold claimExecution, EXECUTION_STATUS.REQUESTED, EXECUTION_STATUS.CLAIMED.
  repeat split.
  - by intros ->.
  - intros exec -> Hstatus.
    destruct (is_string _ _) eqn:Hs; [|done].
    by apply is_string_spec in Hs.
  - intros exec -> Hclaimed.
    destruct (is_string _ _); [|done]. simpl.
    destruct (is_null _) eqn:Hn; [|done].
    by apply is_null_spec in Hn.
  - intros exec -> Hstatus Hclaimed.
    rewrite (proj2 (is_string_spec _ _) Hstatus), (proj2 (is_null_spec _) Hclaimed).
    reflexivity.
Qed.

Lemma claimExecution_spec_witness :
  claimExecution 1700000000500 (str "exec-1")
    (mkCoordinationProtocol 7
       {[ str "exec-1" :=
            <["claimedBy" := JNull]> {[ "status" := JStr (str "requested") ]} ]})
  = (true,
     mkCoordinationProtocol 7
       (<[str "exec-1" :=
            <["claimedAt" := JNum 1700000000500]>
              (<["claimedBy" := JNum 7]>
                 (<["status" := JStr (str "claimed")]>
                    (<["claimedBy" := JNull]>
                       {[ "status" := JStr (str "requested") ]})))]>
          {[ str "exec-1" :=
               <["claimedBy" := JNull]> {[ "status" := JStr (str "requested") ]} ]})).
Proof.
  exact (proj2 (proj2 (proj2
    (claimExecution_spec 1700000000500 (str "exec-1")
       (mkCoordinationProtocol 7
          {[ str "exec-1" :=
               <["claimedBy" := JNull]> {[ "status" := JStr (str "requested") ]} ]}))))
    (<["claimedBy" := JNull]> {[ "status" := JStr (str "requested") ]})
    eq_refl eq_refl eq_refl).
Defined.

(** C10: a successful [claimExecution] changes the properties status,
    claimedBy and claimedAt of the record only; every other property, present
    or not, reads the same in the written record as in the record read. *)
Theorem claimExecution_frame (now : Z) (execId : list N)
    (p p' : CoordinationProtocol) (exec : gmap string JsVal) :
  executions p !! execId = Some exec →
  claimExecution now execId p = (true, p') →
  ∃ exec', executions p' !! execId = Some exec'
    ∧ (∀ k : string, k ∉ ["status"; "claimedBy"; "claimedAt"] → exec' !! k = exec !! k)
    ∧ Forall (fun k : string => exec' !! k = exec !! k)
        ["id"; "cellId"; "code"; "language"; "runtimeUrl"; "session";
         "requestedBy"; "requestedAt"; "outputBlockReady"; "outputPosition";
         "startedAt"; "completedAt"; "stdinRequest"; "stdinResponse";
         "result"; "error"; "displayData"].
Proof.
  intros Hexec. unfold claimExecution. rewrite Hexec.
  destruct (negb (is_string _ _)); [done|].
  destruct (negb (is_null _)); [done|].
  intros [= <-]. simpl. eexists. split; [apply lookup_insert_eq|].
  assert (Hframe : ∀ k : string, k ∉ ["status"; "claimedBy"; "claimedAt"] →
    (<["claimedAt" := JNum now]>
       (<["claimedBy" := JNum (clientId p)]>
          (<["status" := JStr EXECUTION_STATUS.CLAIMED]> exec))) !! k = exec !! k).
  { intros k Hk. rewrite !not_elem_of_cons in Hk. destruct Hk as (? & ? & ? & _).
    by rewrite !lookup_insert_ne. }
  split; [done|].
  repeat (apply Forall_cons; split;
          [apply Hframe; rewrite !not_elem_of_cons; repeat split;
             [discriminate..|apply not_elem_of_nil] |]).
  apply Forall_nil_2.
Qed.

Lemma claimExecution_frame_witness :
  ∃ exec',
    executions
      (mkCoordinationProtocol 7
         (<[str "exec-1" :=
              <["claimedAt" := JNum 5]>
                (<["claimedBy" := JNum 7]>
                   (<["status" := JStr (str "claimed")]>
                      (<["code" := JStr (str "1+1")]>
                         (<["claimedBy" := JNull]>
                            {[ "status" := JStr (str "requested") ]}))))]>
            {[ str "exec-1" :=
                 <["code" := JStr (str "1+1")]>
                   (<["claimedBy" := JNull]>
                      {[ "status" := JStr (str "requested") ]}) ]}))
      !! str "exec-1" = Some exec'
    ∧ (∀ k : string, k ∉ ["status"; "claimedBy"; "claimedAt"] →
        exec' !! k
        = (<["code" := JStr (str "1+1")]>
             (<["claimedBy" := JNull]>
                {[ "status" := JStr (str "requested") ]}) : gmap string JsVal) !! k)
    ∧ Forall (fun k : string =>
        exec' !! k
        = (<["code" := JStr (str "1+1")]>
             (<["claimedBy" := JNull]>
                {[ "status" := JStr (str "requested") ]}) : gmap string JsVal) !! k)
        ["id"; "cellId"; "code"; "language"; "runtimeUrl"; "session";
         "requestedBy"; "requestedAt"; "outputBlockReady"; "outputPosition";
         "startedAt"; "completedAt"; "stdinRequest"; "stdinResponse";
         "result"; "error"; "displayData"].
Proof.
  exact (claimExecution_frame 5 (str "exec-1")
    (mkCoordinationProtocol 7
       {[ str "exec-1" :=
            <["code" := JStr (str "1+1")]>
              (<["claimedBy" := JNull]>
                 {[ "status" := JStr (str "requested") ]}) ]})
    _ _ eq_refl eq_refl).
Defined.

End Claim.

Section ExecId.

Lemma uint_digits (u : Decimal.uint) :
  Forall (fun c => is_digit c = true) (str (NilEmpty.string_of_uint u)).
Proof. induction u; simpl; constructor; done. Qed.

Lemma decimal_digits (z : Z) :
  (0 ≤ z)%Z →
  Forall (fun c => is_digit c = true) (decimal z) ∧ decimal z ≠ [].
Proof.
  intros Hz. unfold decimal.
  destruct z as [|p|p]; [| |lia].
  - split; [repeat constructor | done].
  - simpl. unfold NilZero.string_of_uint.
    pose proof (uint_digits (Pos.to_uint p)) as Hd.
    destruct (Pos.to_uint p); simpl in *; split; try done.
    repeat constructor.
Qed.

Lemma digit_prefix_app ds c rest :
  Forall (fun c => is_digit c = true) ds → is_digit c = false →
  digit_prefix (ds ++ c :: rest) = ds.
Proof.
  intros Hds Hc. induction Hds as [|d ds Hd _ IH]; simpl.
  - by rewrite Hc.
  - by rewrite Hd, IH.
Qed.

Lemma digit36_base36 (d : N) : (d < 36)%N → is_base36 (digit36 d) = true.
Proof.
  intros Hd. unfold is_base36, digit36, is_digit.
  destruct (N.ltb_spec d 10).
  - apply orb_true_iff. left. apply andb_true_iff. split; apply N.leb_le; lia.
  - apply orb_true_iff. right. apply andb_true_iff. split; apply N.leb_le; lia.
Qed.

Lemma slice_toString36 frac : slice 2 8 (toString36 frac) = take 6 (digit36 <$> frac).
Proof. destruct frac; reflexivity. Qed.

(** C7, as the code has it: for a clock reading that is not negative, the
    id is "exec-", the decimal digits of the clock, "-" and the first six
    base-36 digits of the random number's fraction, or all of them when the
    number has fewer than six (none for 0).  The id matches
    ^exec-\d+-[0-9a-z]{0,6}$, and it matches ^exec-\d+-[0-9a-z]{6}$ when the
    number has six digits or more. *)
Theorem generateExecId_format (now : Z) (frac : list N) :
  (0 ≤ now)%Z → Forall (fun d => (d < 36)%N) frac →
  generateExecId now frac
  = str "exec-" ++ decimal now ++ str "-" ++ take 6 (digit36 <$> frac)
  ∧ matches_exec_id 0 6 (generateExecId now frac) = true
  ∧ matches_exec_id (Nat.min 6 (length frac)) (Nat.min 6 (length frac))
      (generateExecId now frac) = true.
Proof.
  intros Hnow Hfrac. unfold generateExecId. rewrite slice_toString36.
  split; [done|].
  destruct (decimal_digits now Hnow) as [Hdigits Hne].
  assert (Hsuffix : forallb is_base36 (take 6 (digit36 <$> frac)) = true).
  { apply forallb_forall. intros c Hc%list_elem_of_In.
    apply elem_of_take in Hc as (i & Hc & _).
    rewrite list_lookup_fmap in Hc.
    destruct (frac !! i) as [d|] eqn:Hd; [|done]. injection Hc as <-.
    apply digit36_base36. by eapply (Forall_lookup_1 _ _ _ _ Hfrac). }
  assert (Hlen : length (take 6 (digit36 <$> frac)) = Nat.min 6 (length frac)).
  { by rewrite length_take, length_fmap. }
  assert (Hmatch : ∀ lo hi, lo ≤ Nat.min 6 (length frac) ≤ hi →
    matches_exec_id lo hi
      (str "exec-" ++ decimal now ++ str "-" ++ take 6 (digit36 <$> frac)) = true).
  { intros lo hi Hlohi. unfold matches_exec_id.
    change (str "-" ++ ?s) with (MINUS :: s).
    change (drop 5 (str "exec-" ++ ?s)) with s.
    change (starts_with (str "exec-") (str "exec-" ++ ?s)) with true.
    cbv zeta. rewrite digit_prefix_app by done.
    rewrite bool_decide_eq_false_2 by done.
    rewrite drop_app_length. rewrite Hlen, Hsuffix, N.eqb_refl.
    rewrite (proj2 (Nat.leb_le _ _)) by lia.
    rewrite (proj2 (Nat.leb_le _ _)) by lia.
    reflexivity. }
  split; apply Hmatch; lia.
Qed.

Lemma generateExecId_format_witness :
  generateExecId 1700000000000 [18; 3; 35; 0; 10; 9; 7; 1]%N
  = str "exec-" ++ decimal 1700000000000 ++ str "-"
      ++ take 6 (digit36 <$> [18; 3; 35; 0; 10; 9; 7; 1]%N)
  ∧ matches_exec_id 0 6 (generateExecId 1700000000000 [18; 3; 35; 0; 10; 9; 7; 1]%N)
    = true
  ∧ matches_exec_id 6 6 (generateExecId 1700000000000 [18; 3; 35; 0; 10; 9; 7; 1]%N)
    = true.
Proof.
  apply (generateExecId_format 1700000000000 [18; 3; 35; 0; 10; 9; 7; 1]%N).
  - lia.
  - repeat constructor.
Defined.

(** C7 as stated fails: for the random number 0.5, which prints as "0.i" in
    radix 36, the id is "exec-1700000000000-i", with a suffix of one
    character. *)
Lemma generateExecId_short_suffix :
  generateExecId 1700000000000 [18%N] = str "exec-1700000000000-i"
  ∧ matches_exec_id 6 6 (generateExecId 1700000000000 [18%N]) = false.
Proof. split; reflexivity. Qed.

End ExecId.

Section Records.

Lemma same_requests_refl p : same_requests p p.
Proof.
  split; [done|]. intros execId. destruct (executions p !! execId); [|done].
  by apply Forall_forall.
Qed.

Lemma same_requests_trans p1 p2 p3 :
  same_requests p1 p2 → same_requests p2 p3 → same_requests p1 p3.
Proof.
  intros [Hc1 H1] [Hc2 H2]. split; [congruence|]. intros execId.
  specialize (H1 execId). specialize (H2 execId).
  destruct (executions p1 !! execId), (executions p2 !! execId),
    (executions p3 !! execId); try done.
  rewrite Forall_forall in *. intros k Hk. by rewrite H2, H1.
Qed.

(** Writing back a record with the same request. *)
Lemma same_requests_insert p execId exec exec' :
  executions p !! execId = Some exec →
  Forall (fun k : string => exec' !! k = exec !! k) request_fields →
  same_requests p (mkCoordinationProtocol (clientId p) (<[execId := exec']> (executions p))).
Proof.
  intros Hexec Hsame. split; [done|]. intros id. simpl.
  destruct (decide (id = execId)) as [->|Hne].
  - by rewrite Hexec, lookup_insert_eq.
  - rewrite lookup_insert_ne by done.
    destruct (executions p !! id); [|done]. by apply Forall_forall.
Qed.

End Records.

Ltac same_request_fields :=
  unfold request_fields;
  repeat (apply Forall_cons; split; [by rewrite ?lookup_insert_ne by discriminate|]);
  apply Forall_nil_2.

Section Updates.

Lemma claimExecution_same_requests now execId p :
  same_requests p (snd (claimExecution now execId p)).
Proof.
  unfold claimExecution. destruct (executions p !! execId) as [exec|] eqn:Hexec;
    [|apply same_requests_refl].
  destruct (negb (is_string _ _)); [apply same_requests_refl|].
  destruct (negb (is_null _)); [apply same_requests_refl|].
  apply (same_requests_insert _ _ exec); [done|same_request_fields].
Qed.

Lemma setOutputBlockReady_same_requests execId outputPosition p :
  same_requests p (setOutputBlockReady execId outputPosition p).
Proof.
  unfold setOutputBlockReady. destruct (executions p !! execId) as [exec|] eqn:Hexec;
    [|apply same_requests_refl].
  apply (same_requests_insert _ _ exec); [done|same_request_fields].
Qed.

Lemma setRunning_same_requests now execId p :
  same_requests p (setRunning now execId p).
Proof.
  unfold setRunning. destruct (executions p !! execId) as [exec|] eqn:Hexec;
    [|apply same_requests_refl].
  apply (same_requests_insert _ _ exec); [done|same_request_fields].
Qed.

Lemma setCompleted_same_requests now execId result displayData p :
  same_requests p (setCompleted now execId result displayData p).
Proof.
  unfold setCompleted. destruct (executions p !! execId) as [exec|] eqn:Hexec;
    [|apply same_requests_refl].
  apply (same_requests_insert _ _ exec); [done|same_request_fields].
Qed.

Lemma setError_same_requests now execId error p :
  same_requests p (setError now execId error p).
Proof.
  unfold setError. destruct (executions p !! execId) as [exec|] eqn:Hexec;
    [|apply same_requests_refl].
  apply (same_requests_insert _ _ exec); [done|same_request_fields].
Qed.

Lemma requestStdin_same_requests now execId prompt password p :
  same_requests p (requestStdin now execId prompt password p).
Proof.
  unfold requestStdin. destruct (executions p !! execId) as [exec|] eqn:Hexec;
    [|apply same_requests_refl].
  apply (same_requests_insert _ _ exec); [done|same_request_fields].
Qed.

Lemma respondStdin_same_requests now execId text p :
  same_requests p (respondStdin now execId text p).
Proof.
  unfold respondStdin. destruct (executions p !! execId) as [exec|] eqn:Hexec;
    [|apply same_requests_refl].
  apply (same_requests_insert _ _ exec); [done|same_request_fields].
Qed.

Lemma clearStdinRequest_same_requests execId p :
  same_requests p (clearStdinRequest execId p).
Proof.
  unfold clearStdinRequest. destruct (executions p !! execId) as [exec|] eqn:Hexec;
    [|apply same_requests_refl].
  apply (same_requests_insert _ _ exec); [done|same_request_fields].
Qed.

Lemma addDisplayData_same_requests execId display p p' :
  addDisplayData execId display p = Some p' → same_requests p p'.
Proof.
  unfold addDisplayData. destruct (executions p !! execId) as [exec|] eqn:Hexec.
  - destruct (spread _) as [items|]; [|done]. simpl. intros [= <-].
    apply (same_requests_insert _ _ exec); [done|same_request_fields].
  - intros [= <-]. apply same_requests_refl.
Qed.

Lemma updated_same_requests p p' : updated p p' → same_requests p p'.
Proof.
  induction 1; [apply same_requests_refl|..];
    (eapply same_requests_trans; [eassumption|]);
    eauto using claimExecution_same_requests, setOutputBlockReady_same_requests,
      setRunning_same_requests, setCompleted_same_requests, setError_same_requests,
      requestStdin_same_requests, respondStdin_same_requests,
      clearStdinRequest_same_requests, addDisplayData_same_requests.
Qed.

End Updates.

(** A successful [claimExecution] is the only one: once a client has claimed
    a record, [claimExecution] of the same id on that map returns false and
    writes nothing, for every client and at every later time. *)
Theorem claimExecution_exclusive (now now' : Z) (execId : list N) (other : Z)
    (p p' : CoordinationProtocol) :
  claimExecution now execId p = (true, p') →
  claimExecution now' execId (mkCoordinationProtocol other (executions p'))
  = (false, mkCoordinationProtocol other (executions p')).
Proof.
  unfold claimExecution at 1.
  destruct (executions p !! execId) as [exec|]; [|done].
  destruct (negb (is_string _ _)); [done|].
  destruct (negb (is_null _)); [done|].
  intros [= <-]. unfold claimExecution. cbn [executions clientId].
  rewrite lookup_insert_eq. unfold field.
  rewrite lookup_insert_ne by discriminate.
  rewrite lookup_insert_ne by discriminate.
  by rewrite lookup_insert_eq.
Qed.

Lemma claimExecution_exclusive_witness :
  claimExecution 9 (str "exec-1")
    (mkCoordinationProtocol 8
       (executions
          (snd (claimExecution 5 (str "exec-1")
                  (snd (requestExecution 1 (str "exec-1") (JStr (str "1+1"))
                          (JStr (str "python")) (JStr (str "http://r"))
                          (JStr (str "default")) JUndefined
                          (mkCoordinationProtocol 7 ∅)))))))
  = (false,
     mkCoordinationProtocol 8
       (executions
          (snd (claimExecution 5 (str "exec-1")
                  (snd (requestExecution 1 (str "exec-1") (JStr (str "1+1"))
                          (JStr (str "python")) (JStr (str "http://r"))
                          (JStr (str "default")) JUndefined
                          (mkCoordinationProtocol 7 ∅))))))).
Proof.
  apply (claimExecution_exclusive 5 9 (str "exec-1") 8
    (snd (requestExecution 1 (str "exec-1") (JStr (str "1+1"))
            (JStr (str "python")) (JStr (str "http://r"))
            (JStr (str "default")) JUndefined (mkCoordinationProtocol 7 ∅)))).
  reflexivity.
Defined.


(** The methods that update a record never add or remove one and never touch
    what was requested: after any sequence of calls of [claimExecution],
    [setOutputBlockReady], [setRunning], [setCompleted], [setError],
    [requestStdin], [respondStdin], [clearStdinRequest] and [addDisplayData],
    the map has the same ids, and each record has the id, cellId, code,
    language, runtimeUrl, session, requestedBy and requestedAt it had. *)
Theorem updated_keeps_requests (p p' : CoordinationProtocol) :
  updated p p' →
  clientId p' = clientId p
  ∧ dom (executions p') = dom (executions p)
  ∧ ∀ execId exec, executions p !! execId = Some exec →
      ∃ exec', executions p' !! execId = Some exec'
        ∧ Forall (fun k : string => exec' !! k = exec !! k)
            ["id"; "cellId"; "code"; "language"; "runtimeUrl"; "session";
             "requestedBy"; "requestedAt"].
Proof.
  intros [Hclient Hsame]%updated_same_requests. split_and!.
  - done.
  - apply set_eq. intros execId. rewrite !elem_of_dom.
    specialize (Hsame execId).
    destruct (executions p !! execId), (executions p' !! execId);
      rewrite <- ?not_eq_None_Some; naive_solver.
  - intros execId exec Hexec. specialize (Hsame execId). rewrite Hexec in Hsame.
    destruct (executions p' !! execId) as [exec'|]; [|done]. by exists exec'.
Qed.

Lemma updated_keeps_requests_witness :
  clientId
    (setRunning 9 (str "exec-1")
       (snd (claimExecution 5 (str "exec-1")
               (snd (requestExecution 1 (str "exec-1") (JStr (str "1+1"))
                       (JStr (str "python")) (JStr (str "http://r"))
                       (JStr (str "default")) JUndefined
                       (mkCoordinationProtocol 7 ∅))))))
  = clientId
      (snd (requestExecution 1 (str "exec-1") (JStr (str "1+1"))
              (JStr (str "python")) (JStr (str "http://r"))
              (JStr (str "default")) JUndefined (mkCoordinationProtocol 7 ∅)))
  ∧ dom (executions
           (setRunning 9 (str "exec-1")
              (snd (claimExecution 5 (str "exec-1")
                      (snd (requestExecution 1 (str "exec-1") (JStr (str "1+1"))
                              (JStr (str "python")) (JStr (str "http://r"))
                              (JStr (str "default")) JUndefined
                              (mkCoordinationProtocol 7 ∅)))))))
    = dom (executions
             (snd (requestExecution 1 (str "exec-1") (JStr (str "1+1"))
                     (JStr (str "python")) (JStr (str "http://r"))
                     (JStr (str "default")) JUndefined (mkCoordinationProtocol 7 ∅))))
  ∧ ∀ execId exec,
      executions
        (snd (requestExecution 1 (str "exec-1") (JStr (str "1+1"))
                (JStr (str "python")) (JStr (str "http://r"))
                (JStr (str "default")) JUndefined (mkCoordinationProtocol 7 ∅)))
        !! execId = Some exec →
      ∃ exec',
        executions
          (setRunning 9 (str "exec-1")
             (snd (claimExecution 5 (str "exec-1")
                     (snd (requestExecution 1 (str "exec-1") (JStr (str "1+1"))
                             (JStr (str "python")) (JStr (str "http://r"))
                             (JStr (str "default")) JUndefined
                             (mkCoordinationProtocol 7 ∅))))))
          !! execId = Some exec'
        ∧ Forall (fun k : string => exec' !! k = exec !! k)
            ["id"; "cellId"; "code"; "language"; "runtimeUrl"; "session";
             "requestedBy"; "requestedAt"].
Proof.
  apply (updated_keeps_requests
    (snd (requestExecution 1 (str "exec-1") (JStr (str "1+1"))
            (JStr (str "python")) (JStr (str "http://r"))
            (JStr (str "default")) JUndefined (mkCoordinationProtocol 7 ∅)))).
  apply updated_setRunning, updated_claimExecution, updated_refl.
Defined.

Section Stdin.

Lemma field_insert_eq (exec : gmap string JsVal) k v : field (<[k := v]> exec) k = v.
Proof. unfold field. by rewrite lookup_insert_eq. Qed.

Lemma field_insert_ne (exec : gmap string JsVal) k k' v :
  k ≠ k' → field (<[k := v]> exec) k' = field exec k'.
Proof. intros Hne. unfold field. by rewrite lookup_insert_ne. Qed.

End Stdin.

(** The stdin exchange on a record that exists: [requestStdin] stores the
    prompt and drops a response left from before; [respondStdin] adds the
    text and keeps the request; [clearStdinRequest] sets both back to null;
    none of the three changes the status. *)
Theorem stdin_round_trip (now now' : Z) (execId : list N)
    (prompt password text : JsVal) (p : CoordinationProtocol)
    (exec : gmap string JsVal) :
  executions p !! execId = Some exec →
  ∃ exec1 exec2 exec3,
    getExecution execId (requestStdin now execId prompt password p) = Some exec1
    ∧ getExecution execId
        (respondStdin now' execId text (requestStdin now execId prompt password p))
      = Some exec2
    ∧ getExecution execId
        (clearStdinRequest execId
           (respondStdin now' execId text (requestStdin now execId prompt password p)))
      = Some exec3
    ∧ get_prop (field exec1 "stdinRequest") "prompt" = Some prompt
    ∧ field exec1 "stdinResponse" = JNull
    ∧ field exec2 "stdinRequest" = field exec1 "stdinRequest"
    ∧ get_prop (field exec2 "stdinResponse") "text" = Some text
    ∧ field exec3 "stdinRequest" = JNull
    ∧ field exec3 "stdinResponse" = JNull
    ∧ field exec1 "status" = field exec "status"
    ∧ field exec2 "status" = field exec "status"
    ∧ field exec3 "status" = field exec "status".
Proof.
  intros Hexec. unfold getExecution, clearStdinRequest, respondStdin, requestStdin.
  rewrite Hexec. cbn [executions clientId]. rewrite lookup_insert_eq.
  cbn [executions clientId]. rewrite lookup_insert_eq.
  cbn [executions clientId]. rewrite lookup_insert_eq.
  do 3 eexists. split_and!; try reflexivity;
    by rewrite ?field_insert_eq, ?field_insert_ne, ?field_insert_eq by discriminate.
Qed.

Lemma stdin_round_trip_witness :
  ∃ exec1 exec2 exec3,
    getExecution (str "e1")
      (requestStdin 3 (str "e1") (JStr (str "name? ")) JUndefined
         (mkCoordinationProtocol 7 {[ str "e1" := {[ "status" := JStr (str "running") ]} ]}))
    = Some exec1
    ∧ getExecution (str "e1")
        (respondStdin 4 (str "e1") (JStr (str "Ada"))
           (requestStdin 3 (str "e1") (JStr (str "name? ")) JUndefined
              (mkCoordinationProtocol 7
                 {[ str "e1" := {[ "status" := JStr (str "running") ]} ]})))
      = Some exec2
    ∧ getExecution (str "e1")
        (clearStdinRequest (str "e1")
           (respondStdin 4 (str "e1") (JStr (str "Ada"))
              (requestStdin 3 (str "e1") (JStr (str "name? ")) JUndefined
                 (mkCoordinationProtocol 7
                    {[ str "e1" := {[ "status" := JStr (str "running") ]} ]}))))
      = Some exec3
    ∧ get_prop (field exec1 "stdinRequest") "prompt" = Some (JStr (str "name? "))
    ∧ field exec1 "stdinResponse" = JNull
    ∧ field exec2 "stdinRequest" = field exec1 "stdinRequest"
    ∧ get_prop (field exec2 "stdinResponse") "text" = Some (JStr (str "Ada"))
    ∧ field exec3 "stdinRequest" = JNull
    ∧ field exec3 "stdinResponse" = JNull
    ∧ field exec1 "status"
      = field ({[ "status" := JStr (str "running") ]} : gmap string JsVal) "status"
    ∧ field exec2 "status"
      = field ({[ "status" := JStr (str "running") ]} : gmap string JsVal) "status"
    ∧ field exec3 "status"
      = field ({[ "status" := JStr (str "running") ]} : gmap string JsVal) "status".
Proof.
  apply (stdin_round_trip 3 4 (str "e1") (JStr (str "name? ")) JUndefined
           (JStr (str "Ada"))
           (mkCoordinationProtocol 7
              {[ str "e1" := {[ "status" := JStr (str "running") ]} ]})
           {[ "status" := JStr (str "running") ]}).
  apply lookup_singleton_eq.
Defined.

(** Display data accumulate in order: on a record whose displayData is an
    array, a sequence of [addDisplayData] calls never throws and leaves the
    array followed by the items added, in the order of the calls; a
    [setCompleted] without displayData then keeps that array, and stores the
    result, or null when there is none. *)
Theorem addDisplayData_accumulates (execId : list N) (displays items : list JsVal)
    (p : CoordinationProtocol) (exec : gmap string JsVal) :
  executions p !! execId = Some exec →
  field exec "displayData" = JArr items →
  ∃ p' exec',
    foldl (fun acc display => acc ≫= addDisplayData execId display) (Some p) displays
    = Some p'
    ∧ getExecution execId p' = Some exec'
    ∧ field exec' "displayData" = JArr (items ++ displays)
    ∧ ∀ now result, ∃ exec'',
        getExecution execId (setCompleted now execId result JUndefined p') = Some exec''
        ∧ field exec'' "displayData" = JArr (items ++ displays)
        ∧ field exec'' "result" = nullish_or result JNull
        ∧ field exec'' "status" = JStr (str "completed").
Proof.
  revert items p exec. induction displays as [|display displays IH];
    intros items p exec Hexec Hitems.
  - exists p, exec. rewrite app_nil_r. split_and!; try done.
    intros now result. unfold getExecution, setCompleted. rewrite Hexec.
    cbn [executions]. rewrite lookup_insert_eq. eexists. split; [reflexivity|].
    rewrite field_insert_eq, Hitems. split_and!; [done|..].
    + by rewrite field_insert_ne, field_insert_eq by discriminate.
    + by rewrite !field_insert_ne, field_insert_eq by discriminate.
  - cbn [foldl mbind option_bind]. unfold addDisplayData at 2. rewrite Hexec, Hitems.
    cbn [or_else truthy spread mbind option_bind].
    destruct (IH (items ++ [display])
                (mkCoordinationProtocol (clientId p)
                   (<[execId := <["displayData" := JArr (items ++ [display])]> exec]>
                      (executions p)))
                (<["displayData" := JArr (items ++ [display])]> exec))
      as (p' & exec' & Hfold & Hget & Hdata & Hdone).
    + cbn [executions]. apply lookup_insert_eq.
    + apply field_insert_eq.
    + rewrite <- app_assoc in Hdata, Hdone. by exists p', exec'.
Qed.

Lemma addDisplayData_accumulates_witness :
  ∃ p' exec',
    foldl (fun acc display => acc ≫= addDisplayData (str "e1") display)
      (Some (mkCoordinationProtocol 7
               {[ str "e1" := {[ "displayData" := JArr [JNum 1] ]} ]}))
      [JNum 2; JNum 3]
    = Some p'
    ∧ getExecution (str "e1") p' = Some exec'
    ∧ field exec' "displayData" = JArr ([JNum 1] ++ [JNum 2; JNum 3])
    ∧ ∀ now result, ∃ exec'',
        getExecution (str "e1") (setCompleted now (str "e1") result JUndefined p')
        = Some exec''
        ∧ field exec'' "displayData" = JArr ([JNum 1] ++ [JNum 2; JNum 3])
        ∧ field exec'' "result" = nullish_or result JNull
        ∧ field exec'' "status" = JStr (str "completed").
Proof.
  apply (addDisplayData_accumulates (str "e1") [JNum 2; JNum 3] [JNum 1]
           (mkCoordinationProtocol 7
              {[ str "e1" := {[ "displayData" := JArr [JNum 1] ]} ]})
           {[ "displayData" := JArr [JNum 1] ]}).
  - apply lookup_singleton_eq.
  - reflexivity.
Defined.

(** ** The runtime client *)

Import Execution.

Section Settle.

Variable JSON_parse : list N → option JsVal.

Lemma try_block_rejected callbacks p (e : JsError) calls :
  try_block JSON_parse callbacks p (inl e) calls = (calls, inl e).
Proof. destruct p; reflexivity. Qed.

Lemma catch_block_abort callbacks calls :
  catch_block callbacks AbortError calls = (calls, inr aborted_result).
Proof. reflexivity. Qed.

(** A task whose controller has been aborted settles with the aborted
    result and calls no callback. *)
Lemma resume_aborted (t : Task) (r : JsError + Answer (pending t))
    (h : ExecutionHandler) (calls : list Call) :
  controllers h !! abortController t = Some true →
  resume JSON_parse t r h calls
  = (finally_block (execId t) h, calls, Settled (Returned aborted_result)).
Proof.
  intros Haborted. unfold resume, delivered. rewrite Haborted. simpl.
  by rewrite try_block_rejected, catch_block_abort.
Qed.

(** Every way of settling goes through the [finally] block. *)
Lemma resume_settled (t : Task) (r : JsError + Answer (pending t))
    (h h' : ExecutionHandler) (calls calls' : list Call) (o : Outcome) :
  resume JSON_parse t r h calls = (h', calls', Settled o) →
  h' = finally_block (execId t) h.
Proof.
  unfold resume.
  destruct (try_block _ _ _ _ _) as [calls1 [err|[p|v]]].
  - destruct (catch_block _ _ _) as [calls2 [e|v]]; by intros [= <- _ _].
  - intros [=].
  - by intros [= <- _ _].
Qed.

(** A task that suspends again leaves the handler alone. *)
Lemma resume_suspended (t t' : Task) (r : JsError + Answer (pending t))
    (h h' : ExecutionHandler) (calls calls' : list Call) :
  resume JSON_parse t r h calls = (h', calls', Suspended t') →
  h' = h ∧ execId t' = execId t ∧ abortController t' = abortController t.
Proof.
  unfold resume.
  destruct (try_block _ _ _ _ _) as [calls1 [err|[p|v]]].
  - destruct (catch_block _ _ _) as [calls2 [e|v]]; intros [=].
  - by intros [= <- _ <-].
  - intros [=].
Qed.

(** The empty string is never a key of [_activeExecutions]: the handler
    starts without it and no operation adds it. *)
Lemma execute_keeps_keys execId callbacks h :
  _activeExecutions h !! [] = None →
  _activeExecutions (fst (execute execId callbacks h)) !! [] = None.
Proof.
  intros Hinv. unfold execute. simpl.
  destruct execId as [[|c id]|]; simpl; try done.
  by rewrite lookup_insert_ne.
Qed.

Lemma finally_keeps_keys execId h :
  _activeExecutions h !! [] = None →
  _activeExecutions (finally_block execId h) !! [] = None.
Proof.
  intros Hinv. unfold finally_block.
  destruct (given execId); simpl; [|done].
  by apply lookup_delete_None; right.
Qed.

Lemma cancel_keeps_keys id h :
  _activeExecutions (cancel id h) = _activeExecutions h.
Proof. unfold cancel. by destruct (_ !! id). Qed.

Lemma reachable_keys h : reachable JSON_parse h → _activeExecutions h !! [] = None.
Proof.
  induction 1 as [|execId callbacks h _ IH|t r h calls _ IH|execId h _ IH|h _ IH].
  - done.
  - by apply execute_keeps_keys.
  - destruct (resume JSON_parse t r h calls) as [[h' calls'] [t'|o]] eqn:Hres; simpl.
    + by apply resume_suspended in Hres as (-> & _ & _).
    + apply resume_settled in Hres as ->. by apply finally_keeps_keys.
  - by rewrite cancel_keeps_keys.
  - done.
Qed.

End Settle.

(** C6: while an [execute] call is suspended at an [await] and registered
    under [execId], [cancel(execId)] aborts its controller; the call then
    settles by returning {success:false, error:{type:"Aborted",
    message:"Execution cancelled"}} and makes no callback call on the way: in
    particular [onError] is not invoked. *)
Theorem cancel_returns_aborted (JSON_parse : list N → option JsVal)
    (h : ExecutionHandler) (t : Task) (id : list N)
    (r : JsError + Answer (pending t)) (calls : list Call) :
  _activeExecutions h !! id = Some (abortController t) →
  abortController t < length (controllers h) →
  resume JSON_parse t r (cancel id h) calls
  = (finally_block (execId t) (cancel id h), calls, Settled (Returned aborted_result))
  ∧ aborted_result
    = JObj [("success", JBool false);
            ("error", JObj [("type", JStr (str "Aborted"));
                            ("message", JStr (str "Execution cancelled"))])].
Proof.
  intros Hreg Hctrl. split; [|reflexivity].
  apply resume_aborted. unfold cancel. rewrite Hreg. simpl.
  by apply list_lookup_insert_eq.
Qed.

Lemma cancel_returns_aborted_witness :
  resume (fun _ => None)
    (snd (execute (Some (str "exec-1")) (mkCallbacks (fun _ => true) (fun _ => None)) new))
    (inr (true, 200))
    (cancel (str "exec-1")
       (fst (execute (Some (str "exec-1"))
               (mkCallbacks (fun _ => true) (fun _ => None)) new)))
    []
  = (finally_block (Some (str "exec-1"))
       (cancel (str "exec-1")
          (fst (execute (Some (str "exec-1"))
                  (mkCallbacks (fun _ => true) (fun _ => None)) new))),
     [], Settled (Returned aborted_result))
  ∧ aborted_result
    = JObj [("success", JBool false);
            ("error", JObj [("type", JStr (str "Aborted"));
                            ("message", JStr (str "Execution cancelled"))])].
Proof.
  apply (cancel_returns_aborted (fun _ => None)
    (fst (execute (Some (str "exec-1")) (mkCallbacks (fun _ => true) (fun _ => None)) new))
    (snd (execute (Some (str "exec-1")) (mkCallbacks (fun _ => true) (fun _ => None)) new))
    (str "exec-1") (inr (true, 200)) []).
  - reflexivity.
  - simpl. lia.
Defined.

(** C9: whenever an [execute] call settles, by a normal return, by the
    aborted return or by a throw, its [execId] is not a key of the registry
    afterwards: [isActive(execId)] is false and [activeCount] is the number
    of the other entries. *)
Theorem settled_execution_not_active (JSON_parse : list N → option JsVal)
    (t : Task) (r : JsError + Answer (pending t))
    (h h' : ExecutionHandler) (calls calls' : list Call) (o : Outcome) (id : list N) :
  _activeExecutions h !! [] = None →
  resume JSON_parse t r h calls = (h', calls', Settled o) →
  execId t = Some id →
  isActive id h' = false
  ∧ (id ∉ dom (_activeExecutions h'))
  ∧ activeCount h' = size (delete id (_activeExecutions h)).
Proof.
  intros Hinv Hsettled Hid.
  apply resume_settled in Hsettled as ->.
  unfold finally_block, isActive, activeCount. rewrite Hid.
  destruct id as [|c id]; simpl.
  - rewrite bool_decide_eq_false_2 by (rewrite Hinv; by intros [? ?]).
    rewrite not_elem_of_dom. by rewrite delete_id.
  - rewrite lookup_delete_eq.
    rewrite bool_decide_eq_false_2 by (by intros [? ?]).
    rewrite not_elem_of_dom, lookup_delete_eq. done.
Qed.

Lemma settled_execution_not_active_witness :
  isActive (str "exec-1")
    (finally_block (Some (str "exec-1"))
       (fst (execute (Some (str "exec-1"))
               (mkCallbacks (fun _ => true) (fun _ => None)) new))) = false
  ∧ (str "exec-1"
     ∉ dom (_activeExecutions
              (finally_block (Some (str "exec-1"))
                 (fst (execute (Some (str "exec-1"))
                         (mkCallbacks (fun _ => true) (fun _ => None)) new)))))
  ∧ activeCount
      (finally_block (Some (str "exec-1"))
         (fst (execute (Some (str "exec-1"))
                 (mkCallbacks (fun _ => true) (fun _ => None)) new)))
    = size (delete (str "exec-1")
              (_activeExecutions
                 (fst (execute (Some (str "exec-1"))
                         (mkCallbacks (fun _ => true) (fun _ => None)) new)))).
Proof.
  apply (settled_execution_not_active (fun _ => None)
    (snd (execute (Some (str "exec-1")) (mkCallbacks (fun _ => true) (fun _ => None)) new))
    (inl (mkJsError (str "TypeError") (str "fetch failed")))
    (fst (execute (Some (str "exec-1")) (mkCallbacks (fun _ => true) (fun _ => None)) new))
    (finally_block (Some (str "exec-1"))
       (fst (execute (Some (str "exec-1"))
               (mkCallbacks (fun _ => true) (fun _ => None)) new)))
    []
    [CallError (JObj [("type", JStr (str "ConnectionError"));
                      ("message", JStr (str "fetch failed"))])]
    (Threw (mkJsError (str "TypeError") (str "fetch failed")))
    (str "exec-1")).
  - reflexivity.
  - reflexivity.
  - reflexivity.
Defined.



Section Lines.





End Lines.

Section Stream.

Variable JSON_parse : list N → option JsVal.










End Stream.





Section Registry.

Variable JSON_parse : list N → option JsVal.

(** The flags after [cancelAll]'s loop: set for the controllers of the
    registry, as before for the others. *)
Lemma cancelAll_controllers (registry : gmap (list N) nat) (flags : list bool) :
  length (map_fold (fun _ controller cs => <[controller := true]> cs) flags registry)
  = length flags
  ∧ ∀ c,
      (c < length flags → (∃ id, registry !! id = Some c) →
       map_fold (fun _ controller cs => <[controller := true]> cs) flags registry !! c
       = Some true)
      ∧ ((∀ id, registry !! id ≠ Some c) →
         map_fold (fun _ controller cs => <[controller := true]> cs) flags registry !! c
         = flags !! c).
Proof.
  apply (map_fold_weak_ind
           (fun r (m : gmap (list N) nat) =>
              length r = length flags
              ∧ ∀ c, (c < length flags → (∃ id, m !! id = Some c) → r !! c = Some true)
                     ∧ ((∀ id, m !! id ≠ Some c) → r !! c = flags !! c))).
  - split; [done|]. intros c. split; [|done]. by intros _ [id Hid].
  - intros i x m r Hi [Hlen IH]. split; [by rewrite length_insert|].
    intros c. split.
    + intros Hc [id Hid]. destruct (decide (c = x)) as [->|Hne].
      * apply list_lookup_insert_eq. lia.
      * rewrite list_lookup_insert_ne by done. apply IH; [done|].
        exists id. apply lookup_insert_Some in Hid as [[_ ->]|[_ Hid]]; done.
    + intros Hnone. assert (c ≠ x) as Hne.
      { intros ->. apply (Hnone i). apply lookup_insert_eq. }
      rewrite list_lookup_insert_ne by done. apply IH.
      intros id Hid. apply (Hnone id).
      rewrite lookup_insert_ne; [done|]. intros ->. by rewrite Hi in Hid.
Qed.

Lemma execute_in_range execId callbacks h :
  in_range h → in_range (fst (execute execId callbacks h)).
Proof.
  intros Hrange id c. unfold execute. cbn [fst].
  destruct (given execId) as [id'|]; cbn [_activeExecutions controllers];
    rewrite length_app; simpl.
  - intros [[_ <-]|[_ Hid]]%lookup_insert_Some; [lia|].
    apply Hrange in Hid. lia.
  - intros Hid. apply Hrange in Hid. lia.
Qed.

Lemma finally_in_range execId h : in_range h → in_range (finally_block execId h).
Proof.
  intros Hrange id c. unfold finally_block.
  destruct (given execId); cbn [_activeExecutions controllers]; [|apply Hrange].
  intros [_ Hid]%lookup_delete_Some. by apply (Hrange id).
Qed.

Lemma resume_in_range t r h calls :
  in_range h → in_range (fst (fst (resume JSON_parse t r h calls))).
Proof.
  intros Hrange.
  destruct (resume JSON_parse t r h calls) as [[h' calls'] [t'|o]] eqn:Hres; simpl.
  - by apply resume_suspended in Hres as (-> & _ & _).
  - apply resume_settled in Hres as ->. by apply finally_in_range.
Qed.

Lemma cancel_in_range execId h : in_range h → in_range (cancel execId h).
Proof.
  intros Hrange id c. unfold cancel.
  destruct (_activeExecutions h !! execId); cbn [_activeExecutions controllers];
    [|apply Hrange].
  rewrite length_insert. apply Hrange.
Qed.

Lemma cancelAll_in_range h : in_range (cancelAll h).
Proof. intros id c. unfold cancelAll. cbn [_activeExecutions]. by rewrite lookup_empty. Qed.

Lemma reachable_in_range h : reachable JSON_parse h → in_range h.
Proof.
  induction 1.
  - intros id c. unfold new. cbn [_activeExecutions]. by rewrite lookup_empty.
  - by apply execute_in_range.
  - by apply resume_in_range.
  - by apply cancel_in_range.
  - apply cancelAll_in_range.
Qed.

Lemma evolves_detached c h h' : detached c h → evolves JSON_parse h h' → detached c h'.
Proof.
  intros Hstart. induction 1 as [|execId callbacks h' _ IH|t r h' calls _ IH
                               |execId h' _ IH|h' _ IH]; [done|..];
    destruct IH as (Hflag & Hnone & Hrange).
  - split_and!; [| |by apply execute_in_range].
    + unfold execute. cbn [fst].
      destruct (given execId); cbn [controllers]; by apply lookup_app_l_Some.
    + intros id. unfold execute. cbn [fst].
      apply lookup_lt_Some in Hflag.
      destruct (given execId) as [id'|]; cbn [_activeExecutions controllers]; [|done].
      intros [[_ Heq]|[_ Hid]]%lookup_insert_Some; [lia|]. by apply (Hnone id).
  - destruct (resume JSON_parse t r h' calls) as [[h'' calls'] [t'|o]] eqn:Hres; simpl.
    + by apply resume_suspended in Hres as (-> & _ & _).
    + apply resume_settled in Hres as ->. split_and!; [| |by apply finally_in_range].
      * unfold finally_block. by destruct (given _).
      * intros id. unfold finally_block.
        destruct (given _); cbn [_activeExecutions]; [|done].
        intros [_ Hid]%lookup_delete_Some. by apply (Hnone id).
  - split_and!; [| |by apply cancel_in_range].
    + unfold cancel. destruct (_activeExecutions h' !! execId) as [c'|] eqn:Hc';
        cbn [controllers]; [|done].
      rewrite list_lookup_insert_ne; [done|]. intros ->. by apply (Hnone execId).
    + intros id. rewrite cancel_keeps_keys. apply Hnone.
  - split_and!; [| |apply cancelAll_in_range].
    + unfold cancelAll. cbn [controllers].
      destruct (cancelAll_controllers (_activeExecutions h') (controllers h'))
        as [_ Hcs].
      by rewrite (proj2 (Hcs c) Hnone).
    + intros id. unfold cancelAll. cbn [_activeExecutions]. by rewrite lookup_empty.
Qed.

End Registry.

(** [cancelAll] empties the registry and aborts every controller that was
    in it, and no other: afterwards no id is active, a controller that an id
    led to has its signal aborted, a controller that no id led to has its
    flag as before, and a call that was registered settles with the aborted
    result without calling a callback. *)
Theorem cancelAll_aborts_all (JSON_parse : list N → option JsVal)
    (h : ExecutionHandler) :
  activeCount (cancelAll h) = 0
  ∧ (∀ id, isActive id (cancelAll h) = false)
  ∧ (∀ id c, _activeExecutions h !! id = Some c → c < length (controllers h) →
       controllers (cancelAll h) !! c = Some true)
  ∧ (∀ c, (∀ id, _activeExecutions h !! id ≠ Some c) →
       controllers (cancelAll h) !! c = controllers h !! c)
  ∧ (∀ id (t : Task) (r : JsError + Answer (pending t)) calls,
       _activeExecutions h !! id = Some (abortController t) →
       abortController t < length (controllers h) →
       resume JSON_parse t r (cancelAll h) calls
       = (finally_block (execId t) (cancelAll h), calls,
          Settled (Returned aborted_result))).
Proof.
  destruct (cancelAll_controllers (_activeExecutions h) (controllers h)) as [_ Hcs].
  assert (Haborted : ∀ id c, _activeExecutions h !! id = Some c →
            c < length (controllers h) → controllers (cancelAll h) !! c = Some true).
  { intros id c Hid Hc. apply (proj1 (Hcs c)); [done|by exists id]. }
  split_and!.
  - unfold activeCount, cancelAll. cbn [_activeExecutions]. apply map_size_empty.
  - intros id. unfold isActive, cancelAll. cbn [_activeExecutions].
    apply bool_decide_eq_false_2. rewrite lookup_empty. by intros [? ?].
  - done.
  - intros c Hnone. by apply (proj2 (Hcs c)).
  - intros id t r calls Hid Hc. apply resume_aborted. by apply (Haborted id).
Qed.

(** A call of [execute] without an [execId], or with the empty string, cannot
    be cancelled: on a handler that the methods have produced, whatever is
    called afterwards ([execute], [cancel] with any id, [cancelAll], other
    calls going on), no id leads to the call's controller and its signal is
    never aborted. *)
Theorem execute_without_id_not_cancellable (JSON_parse : list N → option JsVal)
    (execId : option (list N)) (callbacks : Callbacks) (h h' : ExecutionHandler) :
  reachable JSON_parse h →
  given execId = None →
  evolves JSON_parse (fst (execute execId callbacks h)) h' →
  controllers h' !! abortController (snd (execute execId callbacks h)) = Some false
  ∧ ∀ id, _activeExecutions h' !! id
          ≠ Some (abortController (snd (execute execId callbacks h))).
Proof.
  intros Hreach Hgiven Hevolves.
  pose proof (reachable_in_range JSON_parse h Hreach) as Hrange.
  assert (detached (length (controllers h)) (fst (execute execId callbacks h)))
    as Hstart.
  { split_and!; [| |by apply execute_in_range].
    - unfold execute. rewrite Hgiven. cbn [fst controllers].
      by rewrite lookup_app_r, Nat.sub_diag by lia.
    - intros id Hid. unfold execute in Hid. rewrite Hgiven in Hid.
      cbn [fst _activeExecutions] in Hid. apply Hrange in Hid. lia. }
  destruct (evolves_detached JSON_parse _ _ _ Hstart Hevolves) as (Hflag & Hnone & _).
  done.
Qed.

Lemma execute_without_id_not_cancellable_witness :
  controllers
    (cancelAll
       (cancel (str "e1")
          (fst (execute (Some (str "e1")) (mkCallbacks (fun _ => true) (fun _ => None))
                  (fst (execute None (mkCallbacks (fun _ => true) (fun _ => None))
                          new))))))
    !! abortController
         (snd (execute None (mkCallbacks (fun _ => true) (fun _ => None)) new))
  = Some false
  ∧ ∀ id,
      _activeExecutions
        (cancelAll
           (cancel (str "e1")
              (fst (execute (Some (str "e1"))
                      (mkCallbacks (fun _ => true) (fun _ => None))
                      (fst (execute None (mkCallbacks (fun _ => true) (fun _ => None))
                              new))))))
        !! id
      ≠ Some (abortController
                (snd (execute None (mkCallbacks (fun _ => true) (fun _ => None)) new))).
Proof.
  apply (execute_without_id_not_cancellable (fun _ => None) None
           (mkCallbacks (fun _ => true) (fun _ => None)) new).
  - apply reachable_new.
  - reflexivity.
  - apply evolves_cancelAll, evolves_cancel, evolves_execute, evolves_refl.
Defined.

(** A response that is not ok: [execute] reads the body and throws an Error
    whose message is "MRP request failed: ", the status, a space and the
    body.  [onStart] is not called; [onError], when there is one, is called
    once, with type ConnectionError and that message; the call settles by a
    throw (of that Error, unless [onError] itself threw) and its execId
    leaves the registry. *)
Theorem execute_http_error (JSON_parse : list N → option JsVal)
    (id : option (list N)) (callbacks : Callbacks) (c : nat) (status : nat)
    (body : list N) (h : ExecutionHandler) (calls : list Call) :
  default false (controllers h !! c) = false →
  resume JSON_parse (mkTask id callbacks c AwaitFetch) (inr (false, status)) h calls
  = (h, calls, Suspended (mkTask id callbacks c (AwaitText status)))
  ∧ resume JSON_parse (mkTask id callbacks c (AwaitText status)) (inr body) h calls
    = let message :=
        str "MRP request failed: " ++ decimal (Z.of_nat status) ++ str " " ++ body in
      let call :=
        CallError (JObj [("type", JStr (str "ConnectionError"));
                         ("message", JStr message)]) in
      (finally_block id h,
       if defined callbacks onError then calls ++ [call] else calls,
       Settled
         (Threw (if defined callbacks onError
                 then default (mkJsError (str "Error") message) (throws callbacks call)
                 else mkJsError (str "Error") message))).
Proof.
  intros Hlive. split.
  - unfold resume, delivered.
    cbn [abortController pending Execution.callbacks Execution.execId].
    by rewrite Hlive.
  - unfold resume, delivered.
    cbn [abortController pending Execution.callbacks Execution.execId].
    rewrite Hlive. cbn [try_block throw]. unfold catch_block.
    cbn [name message]. rewrite bool_decide_eq_false_2 by discriminate.
    unfold bind, invoke, throw.
    destruct (defined callbacks onError); [|done].
    by destruct (throws callbacks _).
Qed.

Lemma execute_http_error_witness :
  resume (fun _ => None)
    (mkTask (Some (str "e1")) (mkCallbacks (fun _ => true) (fun _ => None)) 0 AwaitFetch)
    (inr (false, 500))
    (fst (execute (Some (str "e1")) (mkCallbacks (fun _ => true) (fun _ => None)) new))
    []
  = (fst (execute (Some (str "e1")) (mkCallbacks (fun _ => true) (fun _ => None)) new),
     [],
     Suspended
       (mkTask (Some (str "e1")) (mkCallbacks (fun _ => true) (fun _ => None)) 0
          (AwaitText 500)))
  ∧ resume (fun _ => None)
      (mkTask (Some (str "e1")) (mkCallbacks (fun _ => true) (fun _ => None)) 0
         (AwaitText 500))
      (inr (str "boom"))
      (fst (execute (Some (str "e1")) (mkCallbacks (fun _ => true) (fun _ => None)) new))
      []
    = let message :=
        str "MRP request failed: " ++ decimal (Z.of_nat 500) ++ str " " ++ str "boom" in
      let call :=
        CallError (JObj [("type", JStr (str "ConnectionError"));
                         ("message", JStr message)]) in
      (finally_block (Some (str "e1"))
         (fst (execute (Some (str "e1"))
                 (mkCallbacks (fun _ => true) (fun _ => None)) new)),
       if defined (mkCallbacks (fun _ => true) (fun _ => None)) onError
       then [] ++ [call] else [],
       Settled
         (Threw (if defined (mkCallbacks (fun _ => true) (fun _ => None)) onError
                 then default (mkJsError (str "Error") message)
                        (throws (mkCallbacks (fun _ => true) (fun _ => None)) call)
                 else mkJsError (str "Error") message))).
Proof.
  apply (execute_http_error (fun _ => None) (Some (str "e1"))
           (mkCallbacks (fun _ => true) (fun _ => None)) 0 500 (str "boom")
           (fst (execute (Some (str "e1"))
                   (mkCallbacks (fun _ => true) (fun _ => None)) new))
           []).
  reflexivity.
Defined.

(** ** The monitor *)

Import Monitor.

Section Requests.

Lemma claimExecution_refused now execId p p' :
  claimExecution now execId p = (false, p') →
  p' = p ∧ ∀ now', claimExecution now' execId p = (false, p).
Proof.
  unfold claimExecution. destruct (executions p !! execId) as [exec|]; [|by intros [= <-]].
  destruct (negb (is_string _ _)); [by intros [= <-]|].
  destruct (negb (is_null _)); [by intros [= <-]|]. done.
Qed.

End Requests.

(** [_handleRequest] claims an execution once: calling it again for the same
    id, at any later time, changes nothing, whether the first call claimed
    the execution or was refused. *)
Theorem handleRequest_idempotent (now now' : Z) (execId : list N)
    (m : RuntimeMonitor) :
  _handleRequest now' execId (_handleRequest now execId m)
  = _handleRequest now execId m.
Proof.
  unfold _handleRequest at 2 3.
  destruct (bool_decide (execId ∈ _processingExecutions m)) eqn:Hin.
  - unfold _handleRequest. by rewrite Hin.
  - destruct (claimExecution now execId (coordination m)) as [[|] p] eqn:Hclaim.
    + unfold _handleRequest. cbn [_processingExecutions].
      rewrite bool_decide_eq_true_2; [done|]. apply elem_of_union_l, elem_of_singleton.
      done.
    + apply claimExecution_refused in Hclaim as [-> Hagain].
      unfold _handleRequest. cbn [_processingExecutions coordination].
      by rewrite Hin, Hagain.
Qed.

(** A request that [_handleRequest] takes up is claimed for this monitor: an
    id that the call adds to [_processingExecutions] has a record with
    status 'claimed' and claimedBy the monitor's client id; and the call adds
    no other id and removes none. *)
Theorem handleRequest_claims (now : Z) (execId : list N) (m : RuntimeMonitor) :
  _processingExecutions (_handleRequest now execId m) = _processingExecutions m
  ∨ (_processingExecutions (_handleRequest now execId m)
     = {[execId]} ∪ _processingExecutions m
     ∧ ∃ exec, getExecution execId (coordination (_handleRequest now execId m))
               = Some exec
         ∧ field exec "status" = JStr (str "claimed")
         ∧ field exec "claimedBy" = JNum (clientId (coordination m))).
Proof.
  unfold _handleRequest.
  destruct (bool_decide (execId ∈ _processingExecutions m)); [by left|].
  destruct (claimExecution now execId (coordination m)) as [[|] p] eqn:Hclaim;
    [|by left].
  right. split; [done|]. cbn [coordination].
  unfold claimExecution in Hclaim.
  destruct (executions (coordination m) !! execId) as [exec|]; [|done].
  destruct (negb (is_string _ _)); [done|].
  destruct (negb (is_null _)); [done|].
  injection Hclaim as <-. unfold getExecution. cbn [executions].
  rewrite lookup_insert_eq. eexists. split; [reflexivity|]. split.
  - by rewrite !field_insert_ne, field_insert_eq by discriminate.
  - by rewrite field_insert_ne, field_insert_eq by discriminate.
Qed.

Section Streaming.

Lemma toString_not_newline t s : toString t = Some s → last s ≠ Some LF.
Proof. intros Hs Hlast. by pose proof (toString_last t s LF Hs Hlast). Qed.

End Streaming.

(** The second chunk of output deletes text after the block.  The text that
    the buffer gives never ends in a newline, so after the first [onStdout]
    with some output the fence that closed the block is glued to it; the
    next [onStdout] then replaces everything from the start of the content
    to the next closing fence of the document, or to its end.  *)
Theorem onStdout_second_chunk_deletes (execId a b : list N) (y y1 y2 : YText)
    (t1 t2 : TerminalBuffer) (s1 s2 : list N) (block : OutputBlock) (nxt : nat) :
  LF ∉ execId →
  findOutputBlock (content y) execId = Some block →
  contentEnd block < nxt →
  fence_at (content y) nxt ∨ nxt = length (content y) →
  (∀ p, contentEnd block < p → p < nxt → ¬ fence_at (content y) p) →
  onStdout execId a (Terminal.new, y) = Some (t1, y1) →
  onStdout execId b (t1, y1) = Some (t2, y2) →
  toString t1 = Some s1 → s1 ≠ [] → BACKTICK ∉ s1 →
  toString t2 = Some s2 →
  content y2
  = take (contentStart block) (content y) ++ s2 ++ drop nxt (content y).
Proof.
  intros Hid Hblock Hnxt Hat Hnone Hfirst Hsecond Hs1 Hne Hticks Hs2.
  unfold onStdout in Hfirst, Hsecond. cbn [fst snd] in Hfirst, Hsecond.
  destruct (write a Terminal.new) as [t1'|]; [|done]. cbn in Hfirst.
  destruct (toString t1') as [s1'|] eqn:Hs1'; [|done]. cbn in Hfirst.
  injection Hfirst as -> <-. rewrite Hs1 in Hs1'. injection Hs1' as <-.
  destruct (write b t1) as [t2'|]; [|done]. cbn in Hsecond.
  destruct (toString t2') as [s2'|] eqn:Hs2'; [|done]. cbn in Hsecond.
  injection Hsecond as -> <-. rewrite Hs2 in Hs2'. injection Hs2' as <-.
  apply replaceOutput_twice_content; try done.
  by eapply toString_not_newline.
Qed.

Lemma onStdout_second_chunk_deletes_witness :
  content
    (snd (replaceOutput (str "e1") (str "100%")
            (snd (replaceOutput (str "e1") (str "50%")
                    (mkYText (str "```output:e1" ++ [LF] ++ str "```" ++ [LF]
                                ++ str "after") [])))))
  = take 13 (str "```output:e1" ++ [LF] ++ str "```" ++ [LF] ++ str "after")
      ++ str "100%"
      ++ drop 22 (str "```output:e1" ++ [LF] ++ str "```" ++ [LF] ++ str "after").
Proof.
  apply (onStdout_second_chunk_deletes (str "e1") (str "50%") ([CR] ++ str "100%")
           (mkYText (str "```output:e1" ++ [LF] ++ str "```" ++ [LF] ++ str "after") [])
           (snd (replaceOutput (str "e1") (str "50%")
                   (mkYText (str "```output:e1" ++ [LF] ++ str "```" ++ [LF]
                               ++ str "after") [])))
           (snd (replaceOutput (str "e1") (str "100%")
                   (snd (replaceOutput (str "e1") (str "50%")
                           (mkYText (str "```output:e1" ++ [LF] ++ str "```" ++ [LF]
                                       ++ str "after") [])))))
           (mkTerminalBuffer [Some (str "50%")] 0 3 None)
           (mkTerminalBuffer [Some (str "100%")] 0 4 None)
           (str "50%") (str "100%") (mkOutputBlock 0 13 13) 22).
  - vm_compute. intros H.
    repeat (apply elem_of_cons in H as [H|H]; [discriminate|]). by apply elem_of_nil in H.
  - reflexivity.
  - simpl. lia.
  - right. reflexivity.
  - intros p Hp1 Hp2 [Hfence _]. cbn [contentEnd] in Hp1.
    do 22 (destruct p as [|p]; [first [lia | by vm_compute in Hfence]|]). lia.
  - reflexivity.
  - reflexivity.
  - reflexivity.
  - discriminate.
  - vm_compute. intros H.
    repeat (apply elem_of_cons in H as [H|H]; [discriminate|]). by apply elem_of_nil in H.
  - reflexivity.
Defined.

(** Output that comes in whole lines accumulates in the block: with the
    monitor that appends, when every chunk is free of backticks and ends in
    a newline (or is empty), after the callbacks for the chunks the content of
    the block is what it was followed by the chunks in order, and
    [lastWrittenLength] is the length of the accumulated output. *)
Theorem stream_appends_lines (execId accumulated old : list N)
    (chunks : list (list N)) (y : YText) :
  LF ∉ execId →
  Forall (fun chunk => (BACKTICK ∉ chunk) ∧ (chunk = [] ∨ last chunk = Some LF)) chunks →
  getOutputContent execId y = Some old →
  fst (Appending.stream execId accumulated chunks (length accumulated, y))
  = length (accumulated ++ concat chunks)
  ∧ getOutputContent execId
      (snd (Appending.stream execId accumulated chunks (length accumulated, y)))
    = Some (old ++ concat chunks).
Proof.
  intros Hid Hchunks. revert accumulated old y.
  induction Hchunks as [|chunk chunks [Hticks Hend] _ IH]; intros accumulated old y Hold.
  - simpl. by rewrite !app_nil_r.
  - cbn [Appending.stream concat].
    assert (Appending.onStdout execId (accumulated ++ chunk) (length accumulated, y)
            = (length (accumulated ++ chunk), snd (appendOutput execId chunk y)))
      as ->.
    { unfold Appending.onStdout. cbn [fst snd]. rewrite drop_app_length.
      case_bool_decide as Hnil; [|done].
      rewrite Hnil, app_nil_r. f_equal.
      unfold appendOutput. destruct (findOutputBlock _ _); [|done].
      cbn [snd]. unfold ytext_insert. by destruct y. }
    rewrite !app_assoc. apply IH.
    by apply appendOutput_extends.
Qed.

Lemma stream_appends_lines_witness :
  fst (Appending.stream (str "e1") [] [str "a" ++ [LF]; str "b" ++ [LF]]
         (length ([] : list N),
          mkYText (str "```output:e1" ++ [LF] ++ str "```" ++ [LF]) []))
  = length ([] ++ concat [str "a" ++ [LF]; str "b" ++ [LF]])
  ∧ getOutputContent (str "e1")
      (snd (Appending.stream (str "e1") [] [str "a" ++ [LF]; str "b" ++ [LF]]
              (length ([] : list N),
               mkYText (str "```output:e1" ++ [LF] ++ str "```" ++ [LF]) [])))
    = Some ([] ++ concat [str "a" ++ [LF]; str "b" ++ [LF]]).
Proof.
  apply (stream_appends_lines (str "e1") [] [] [str "a" ++ [LF]; str "b" ++ [LF]]
           (mkYText (str "```output:e1" ++ [LF] ++ str "```" ++ [LF]) [])).
  - vm_compute. intros H.
    repeat (apply elem_of_cons in H as [H|H]; [discriminate|]). by apply elem_of_nil in H.
  - repeat (apply Forall_cons; split;
            [split; [vm_compute; intros H;
                     repeat (apply elem_of_cons in H as [H|H]; [discriminate|]);
                     by apply elem_of_nil in H
                    |by right]|]).
    apply Forall_nil_2.
  - reflexivity.
Defined.
